(** * upload_video.py: the resumable upload driver and the request builder

    A shallow embedding of [initialize_upload] and [resumable_upload] from
    [src/upload_video.py], followed by the properties of the retry loop and
    of the request body.

    Conventions of the embedding.
    - Python [int] is [Z]; the HTTP status of an [HttpError] is a [Z].
    - Python [str] is [string]; the JSON object returned by the service is a
      [gmap string string] (only the presence and the value of the key
      ["id"] are ever inspected).
    - [insert_request.next_chunk()] is an external call.  A run of the loop
      is driven by the list of results of the successive calls
      ([chunk_result]): a returned [(status, response)] pair or a raised
      exception.
    - [random.random()] is an external source of numbers: [random n] is the
      value of the [n]-th call, a rational in the interval [0, 1).  The
      product [random.random() * (2 ** retry)] is a float multiplied by a
      power of two no larger than [2 ** 10], which is exact, so that the
      rational product is the value computed by the program.
    - [print], [time.sleep] and the call of [next_chunk] are recorded, in
      order, in a list of [event]s; [exit(...)] and a propagating exception
      end the function with the corresponding [result]. *)

From Stdlib Require Import Ascii String QArith Lqa.
From stdpp Require Import gmap strings list.

Local Open Scope Z_scope.

(** ** Module constants (lines 17-34) *)

Definition MAX_RETRIES : Z := 10.
Definition RETRIABLE_STATUS_CODES : list Z := [500; 502; 503; 504].
Definition VALID_PRIVACY_STATUSES : list string :=
  ["public"; "private"; "unlisted"]%string.

(** ** Exceptions raised by [next_chunk]

    [HttpError] is [googleapiclient.errors.HttpError]; [HttpLib2Error] and
    [IOError] are the two members of [RETRIABLE_EXCEPTIONS]; any other
    exception is [OtherException]. *)

Inductive exn : Type :=
| HttpError (status : Z) (content : string)
| HttpLib2Error (msg : string)
| IOError (msg : string)
| OtherException (msg : string).

(** The result of one call of [insert_request.next_chunk()].  The [status]
    component of the returned pair is never read by the program and is left
    out. *)

Inductive chunk_result : Type :=
| Return (response : option (gmap string string))
| Raise (e : exn).

(** ** Texts printed or passed to [exit] *)

Inductive message : Type :=
| MsgUploading                                       (* line 79 *)
| MsgUploaded (id : string)                          (* line 83 *)
| MsgUnexpected (response : gmap string string)      (* line 85 *)
| MsgRetriableHttp (status : Z) (content : string)   (* line 88 *)
| MsgRetriable (e : exn)                             (* line 92 *)
| MsgGiveUp                                          (* line 98 *)
| MsgSleeping (sleep_seconds : Q).                   (* line 100 *)

Inductive event : Type :=
| EPrint (m : message)
| ENextChunk
| ESleep (seconds : Q).

(** ** The local variables of [resumable_upload]

    [draws] counts the calls of [random.random()] made so far; it is the
    state of the random source, not a variable of the program. *)

Record state : Type := mkState {
  response : option (gmap string string);
  error : option message;
  retry : Z;
  draws : nat
}.

Definition initial : state :=
  {| response := None; error := None; retry := 0; draws := O |}.

Definition set_response (r : option (gmap string string)) (st : state) : state :=
  {| response := r; error := error st; retry := retry st; draws := draws st |}.

Definition set_error (m : message) (st : state) : state :=
  {| response := response st; error := Some m; retry := retry st;
     draws := draws st |}.

(** How a statement ends: normally, by [exit] or by an exception that is
    not handled. *)

Inductive flow : Type :=
| Normal (st : state)
| SystemExit (st : state) (m : message)
| Propagate (st : state) (e : exn).

(** How the function ends; [Running] is the loop waiting for a result of
    [next_chunk] that the list of results does not contain. *)

Inductive result : Type :=
| Running (st : state)
| Returned (st : state)
| Exited (st : state) (m : message)
| Raised (st : state) (e : exn).

(** ** The [except] clauses (lines 86-92)

    [Some m]: the clause assigns [m] to [error]; [None]: the exception
    leaves the function ([raise] on line 90, or no clause matches). *)

Definition except_clauses (e : exn) : option message :=
  match e with
  | HttpError status content =>
      if decide (status ∈ RETRIABLE_STATUS_CODES)
      then Some (MsgRetriableHttp status content)
      else None
  | HttpLib2Error _ | IOError _ => Some (MsgRetriable e)
  | OtherException _ => None
  end.

(** ** The [try] statement (lines 78-92) *)

Definition try_statement (st : state) (c : chunk_result) : list event * flow :=
  match c with
  | Return None =>
      ([EPrint MsgUploading; ENextChunk], Normal (set_response None st))
  | Return (Some r) =>
      match r !! "id"%string with
      | Some id =>
          ([EPrint MsgUploading; ENextChunk; EPrint (MsgUploaded id)],
           Normal (set_response (Some r) st))
      | None =>
          ([EPrint MsgUploading; ENextChunk],
           SystemExit (set_response (Some r) st) (MsgUnexpected r))
      end
  | Raise e =>
      match except_clauses e with
      | Some m => ([EPrint MsgUploading; ENextChunk], Normal (set_error m st))
      | None => ([EPrint MsgUploading; ENextChunk], Propagate st e)
      end
  end.

Section Driver.

(** [random n] is the value returned by the [n]-th call of
    [random.random()]. *)
Variable random : nat -> Q.

(** ** The [if error is not None] statement (lines 94-101) *)

Definition backoff (st : state) : list event * flow :=
  match error st with
  | None => ([], Normal st)
  | Some err =>
      let retry' := retry st + 1 in
      if decide (retry' > MAX_RETRIES)
      then ([EPrint err],
            SystemExit {| response := response st; error := error st;
                          retry := retry'; draws := draws st |} MsgGiveUp)
      else
        let sleep_seconds := (random (draws st) * inject_Z (2 ^ retry'))%Q in
        ([EPrint err; EPrint (MsgSleeping sleep_seconds); ESleep sleep_seconds],
         Normal {| response := response st; error := error st;
                   retry := retry'; draws := S (draws st) |})
  end.

(** ** The body of the [while] loop (lines 78-101) *)

Definition iteration (st : state) (c : chunk_result) : list event * flow :=
  match try_statement st c with
  | (evs, Normal st1) =>
      let '(evs', f) := backoff st1 in (evs ++ evs', f)
  | (evs, f) => (evs, f)
  end.

(** ** The [while response is None] loop (lines 77-101) *)

Fixpoint while_loop (st : state) (chunks : list chunk_result)
  : list event * result :=
  match response st with
  | Some _ => ([], Returned st)
  | None =>
      match chunks with
      | [] => ([], Running st)
      | c :: chunks' =>
          match iteration st c with
          | (evs, Normal st') =>
              let '(evs', r) := while_loop st' chunks' in (evs ++ evs', r)
          | (evs, SystemExit st' m) => (evs, Exited st' m)
          | (evs, Propagate st' e) => (evs, Raised st' e)
          end
      end
  end.

(** ** [resumable_upload] (lines 72-101) *)

Definition resumable_upload (chunks : list chunk_result)
  : list event * result :=
  while_loop initial chunks.

End Driver.

(** ** [str.split] and [str.join] with a one-character separator

    [str_split sep s] is Python's [s.split(sep)]: the pieces of [s] between
    the occurrences of [sep], empty pieces included; the empty string gives
    one empty piece. *)

Fixpoint str_split (sep : Ascii.ascii) (s : string) : list string :=
  match s with
  | EmptyString => [EmptyString]
  | String c s' =>
      if Ascii.eqb c sep then EmptyString :: str_split sep s'
      else
        match str_split sep s' with
        | w :: ws => String c w :: ws
        | [] => [String c EmptyString]
        end
  end.

Fixpoint str_join (sep : string) (l : list string) : string :=
  match l with
  | [] => EmptyString
  | [w] => w
  | w :: ws => (w ++ sep ++ str_join sep ws)%string
  end.

(** ** The request built by [initialize_upload] (lines 50-67) *)

Record options : Type := mkOptions {
  file : string;
  title : string;
  description : string;
  category : string;
  keywords : string;
  privacyStatus : string
}.

Record snippet : Type := mkSnippet {
  snippet_title : string;
  snippet_description : string;
  snippet_tags : option (list string);
  snippet_categoryId : string
}.

Record body : Type := mkBody {
  body_snippet : snippet;
  body_status_privacyStatus : string
}.

Definition body_keys : list string := ["snippet"; "status"]%string.

Record MediaFileUpload : Type := mkMedia {
  media_filename : string;
  media_chunksize : Z;
  media_resumable : bool
}.

(** The arguments of [youtube.videos().insert(...)]. *)

Record insert_args : Type := mkInsert {
  insert_part : string;
  insert_body : body;
  insert_media_body : MediaFileUpload
}.

(** Line 51: a string is true when it is not empty. *)

Definition tags_of (kw : string) : option (list string) :=
  match kw with
  | EmptyString => None
  | _ => Some (str_split ","%char kw)
  end.

Definition build_body (o : options) : body :=
  {| body_snippet :=
       {| snippet_title := title o;
          snippet_description := description o;
          snippet_tags := tags_of (keywords o);
          snippet_categoryId := category o |};
     body_status_privacyStatus := privacyStatus o |}.

Definition build_insert (o : options) : insert_args :=
  {| insert_part := str_join "," body_keys;
     insert_body := build_body o;
     insert_media_body :=
       {| media_filename := file o; media_chunksize := -1;
          media_resumable := true |} |}.

(** [youtube] is the service: given the arguments of the insert call it
    fixes what the successive calls of [next_chunk] of the request do. *)

Definition initialize_upload (random : nat -> Q)
    (youtube : insert_args -> list chunk_result) (o : options)
  : list event * result :=
  let insert_request := youtube (build_insert o) in
  resumable_upload random insert_request.

(** ** Observations on a trace *)

(** The durations passed to [time.sleep], in order. *)
Fixpoint sleeps (evs : list event) : list Q :=
  match evs with
  | [] => []
  | ESleep d :: evs' => d :: sleeps evs'
  | _ :: evs' => sleeps evs'
  end.

(** The video ids reported as successfully uploaded (line 83), in order. *)
Fixpoint uploaded (evs : list event) : list string :=
  match evs with
  | [] => []
  | EPrint (MsgUploaded id) :: evs' => id :: uploaded evs'
  | _ :: evs' => uploaded evs'
  end.

(** A random source as [random.random()] documents it: every value lies in
    the interval [0, 1). *)
Definition unit_interval (random : nat -> Q) : Prop :=
  forall n, (0 <= random n)%Q /\ (random n < 1)%Q.

(** A result of [next_chunk] after which the loop cannot go on: a response
    was returned, or an exception was raised that no clause turns into a
    retry. *)
Definition ends_upload (c : chunk_result) : Prop :=
  match c with
  | Return (Some _) => True
  | Return None => False
  | Raise e => except_clauses e = None
  end.

(** A failure that the [except] clauses turn into a retry. *)
Definition retriable (c : chunk_result) : Prop :=
  match c with
  | Return _ => False
  | Raise e => is_Some (except_clauses e)
  end.

(** [bound] is the least upper bound, not attained, of the durations the
    driver can sleep for, over all runs with a random source in [0, 1). *)
Definition sleep_supremum (bound : Q) : Prop :=
  (forall random chunks d,
      unit_interval random ->
      In d (sleeps (fst (resumable_upload random chunks))) ->
      (d < bound)%Q)
  /\ (forall b : Q,
      (b < bound)%Q ->
      exists random chunks d,
        unit_interval random
        /\ In d (sleeps (fst (resumable_upload random chunks)))
        /\ (b < d)%Q).

(** The number of occurrences of a character in a string. *)
Fixpoint occurrences (c : Ascii.ascii) (s : string) : nat :=
  match s with
  | EmptyString => O
  | String c' s' =>
      if Ascii.eqb c' c then S (occurrences c s') else occurrences c s'
  end.

(** The number of calls of [next_chunk] recorded in a trace. *)
Fixpoint attempts (evs : list event) : nat :=
  match evs with
  | [] => O
  | ENextChunk :: evs' => S (attempts evs')
  | _ :: evs' => attempts evs'
  end.

(** The variables of the function when it ends (or waits). *)
Definition final_state (r : result) : state :=
  match r with
  | Running st | Returned st | Exited st _ | Raised st _ => st
  end.

Definition flow_state (f : flow) : state :=
  match f with
  | Normal st | SystemExit st _ | Propagate st _ => st
  end.

(** 1 when the function ends by giving up, in which case [retry] was
    incremented once more than the loop slept. *)
Definition gave_up (m : message) : Z :=
  match m with
  | MsgGiveUp => 1
  | _ => 0
  end.

(** The duration of the sleep that uses the [k]-th random number (counted
    from 0): the number times [2 ** (k + 1)]. *)
Definition nth_sleep (random : nat -> Q) (k : nat) : Q :=
  (random k * inject_Z (2 ^ Z.of_nat (S k)))%Q.

(** The texts that the [except] clauses assign to [error]. *)
Definition error_text (m : message) : Prop :=
  match m with
  | MsgRetriableHttp _ _ | MsgRetriable _ => True
  | _ => False
  end.

Definition good_error (o : option message) : Prop :=
  match o with
  | None => True
  | Some m => error_text m
  end.

(** The sum of a list of durations. *)
Fixpoint total (l : list Q) : Q :=
  match l with
  | [] => 0%Q
  | d :: l' => (d + total l')%Q
  end.

(** The trace of a result of [next_chunk] that is mere progress. *)
Definition progress_trace (k : nat) : list event :=
  concat (replicate k [EPrint MsgUploading; ENextChunk]).

(** ** The command line (lines 105-113)

    Each declared argument is either given on the command line or absent.
    [parse_args] is what the declarations ask of [argparser.parse_args()]:
    [--file] is required, the others have a default, and
    [--privacyStatus] must be one of [VALID_PRIVACY_STATUSES]; [None] is
    the parser refusing the command line. *)

Record command_line : Type := mkCommandLine {
  arg_file : option string;
  arg_title : option string;
  arg_description : option string;
  arg_category : option string;
  arg_keywords : option string;
  arg_privacyStatus : option string
}.

Definition parse_args (cl : command_line) : option options :=
  match arg_file cl with
  | None => None
  | Some f =>
      let p := default "public"%string (arg_privacyStatus cl) in
      if decide (p ∈ VALID_PRIVACY_STATUSES)
      then Some {| file := f;
                   title := default "Test Title"%string (arg_title cl);
                   description :=
                     default "Test Description"%string (arg_description cl);
                   category := default "22"%string (arg_category cl);
                   keywords := default EmptyString (arg_keywords cl);
                   privacyStatus := p |}
      else None
  end.

(** ** [get_authenticated_service] (lines 37-47)

    [stored] is what [storage.get()] returns, [from_flow] what [run_flow]
    would return.  The result tells whether the flow was run and which
    credentials are passed to [build].  The calls are taken to succeed: a
    failure of the authorization flow itself is not modelled. *)

Record credentials : Type := mkCredentials {
  invalid : bool;
  token : string
}.

Definition get_authenticated_service
    (stored : option credentials) (from_flow : credentials)
  : bool * credentials :=
  match stored with
  | None => (true, from_flow)
  | Some c => if invalid c then (true, from_flow) else (false, c)
  end.

(** ** The program (lines 104-122) *)

Inductive main_text : Type :=
| TextInvalidFile                                    (* line 116 *)
| TextUpload (m : message)                           (* lines 85 and 98 *)
| TextHttpError (status : Z) (content : string).     (* line 122 *)

Inductive main_event : Type :=
| MRunFlow
| MUpload (e : event)
| MPrint (t : main_text).

(** How the program ends: it reaches the end of the script, it is ended by
    [exit], an exception leaves it, or the upload is still waiting for a
    result of [next_chunk]. *)
Inductive main_result : Type :=
| Finished
| ExitedWith (t : main_text)
| Uncaught (e : exn)
| Uploading.

Definition main (os_path_exists : string -> bool)
    (stored : option credentials) (from_flow : credentials)
    (build : credentials -> insert_args -> list chunk_result)
    (random : nat -> Q) (args : options)
  : list main_event * main_result :=
  if negb (os_path_exists (file args))
  then ([], ExitedWith TextInvalidFile)
  else
    let '(ran, creds) := get_authenticated_service stored from_flow in
    let youtube := build creds in
    let '(evs, r) := initialize_upload random youtube args in
    let trace := (if ran then [MRunFlow] else []) ++ map MUpload evs in
    match r with
    | Returned _ => (trace, Finished)
    | Exited _ m => (trace, ExitedWith (TextUpload m))
    | Raised _ (HttpError status content) =>
        (trace ++ [MPrint (TextHttpError status content)], Finished)
    | Raised _ e => (trace, Uncaught e)
    | Running _ => (trace, Uploading)
    end.

(** The video ids reported as uploaded and the texts printed by the
    program itself, in a trace of [main]. *)
Fixpoint main_uploaded (tr : list main_event) : list string :=
  match tr with
  | [] => []
  | MUpload (EPrint (MsgUploaded id)) :: tr' => id :: main_uploaded tr'
  | _ :: tr' => main_uploaded tr'
  end.

Fixpoint main_printed (tr : list main_event) : list main_text :=
  match tr with
  | [] => []
  | MPrint t :: tr' => t :: main_printed tr'
  | _ :: tr' => main_printed tr'
  end.

(** * Properties *)

Section DriverFacts.

Variable random : nat -> Q.

Lemma set_response_None st : response st = None -> set_response None st = st.
Proof. destruct st; simpl; intros ->; reflexivity. Qed.

(** The loop is [Running] only while no response has been received. *)
Lemma while_loop_running st chunks evs st' :
  while_loop random st chunks = (evs, Running st') -> response st' = None.
Proof.
  revert st evs. induction chunks as [|c chunks IH]; intros st evs; simpl.
  - destruct (response st) eqn:E; intros H; inversion H; subst; exact E.
  - destruct (response st) eqn:E; [discriminate|].
    destruct (iteration random st c) as [e [s|s m|s x]]; try discriminate.
    destruct (while_loop random s chunks) as [e' r] eqn:W.
    intros H; inversion H; subst. eapply IH; eauto.
Qed.

(** A run that is still [Running] continues with the next results. *)
Lemma while_loop_app st pre rest evs st' :
  while_loop random st pre = (evs, Running st') ->
  while_loop random st (pre ++ rest)
  = (evs ++ fst (while_loop random st' rest),
     snd (while_loop random st' rest)).
Proof.
  revert st evs. induction pre as [|c pre IH]; intros st evs; simpl.
  - destruct (response st) eqn:E; intros H; inversion H; subst.
    simpl. destruct (while_loop random st' rest); reflexivity.
  - destruct (response st) eqn:E; [discriminate|].
    destruct (iteration random st c) as [e [s|s m|s x]]; try discriminate.
    destruct (while_loop random s pre) as [e' r] eqn:W.
    intros H; inversion H; subst.
    rewrite (IH _ _ W). simpl. rewrite app_assoc. reflexivity.
Qed.

(** One step of the loop on a result that is an unhandled exception. *)
Lemma while_loop_propagate st e chunks :
  response st = None -> except_clauses e = None ->
  while_loop random st (Raise e :: chunks)
  = ([EPrint MsgUploading; ENextChunk], Raised st e).
Proof.
  intros Hr He. simpl. rewrite Hr. unfold iteration, try_statement.
  rewrite He. reflexivity.
Qed.

Lemma except_clauses_fatal status content :
  status ∉ RETRIABLE_STATUS_CODES ->
  except_clauses (HttpError status content) = None.
Proof. intros H. simpl. destruct (decide _); [contradiction | reflexivity]. Qed.

End DriverFacts.

(** ** Fatal failures and unexpected responses *)

(** C4. At any point of a run (after any results [pre] that leave the loop
    running in state [st], whatever its retry counter), an [HttpError] whose
    status is not retriable ends the function at once with that exception:
    the only events added are the announcement and the call itself (no
    sleep), the variables are those of [st] (the retry counter is not
    incremented, no random number is drawn), and the results [post] that
    would follow are never asked for. *)
Theorem fatal_failure_aborts_immediately
    (random : nat -> Q) (pre post : list chunk_result)
    (status : Z) (content : string) (evs : list event) (st : state) :
  resumable_upload random pre = (evs, Running st) ->
  status ∉ RETRIABLE_STATUS_CODES ->
  resumable_upload random (pre ++ Raise (HttpError status content) :: post)
  = (evs ++ [EPrint MsgUploading; ENextChunk],
     Raised st (HttpError status content)).
Proof.
  unfold resumable_upload. intros Hpre Hst.
  rewrite (while_loop_app _ _ _ _ _ _ Hpre).
  rewrite while_loop_propagate.
  - reflexivity.
  - eapply while_loop_running; eassumption.
  - apply except_clauses_fatal; assumption.
Qed.

Lemma fatal_failure_aborts_immediately_witness :
  resumable_upload (fun _ => 1 # 2)%Q
    ([Return None; Raise (IOError "reset")]
       ++ Raise (HttpError 403 "quota") :: [Return None])
  = ([EPrint MsgUploading; ENextChunk;
      EPrint MsgUploading; ENextChunk;
      EPrint (MsgRetriable (IOError "reset"));
      EPrint (MsgSleeping ((1 # 2) * inject_Z (2 ^ 1)));
      ESleep ((1 # 2) * inject_Z (2 ^ 1))]
       ++ [EPrint MsgUploading; ENextChunk],
     Raised {| response := None;
               error := Some (MsgRetriable (IOError "reset"));
               retry := 1; draws := 1 |}
       (HttpError 403 "quota")).
Proof.
  apply (fatal_failure_aborts_immediately (fun _ => 1 # 2)%Q
           [Return None; Raise (IOError "reset")] [Return None]
           403 "quota").
  - reflexivity.
  - unfold RETRIABLE_STATUS_CODES. rewrite !elem_of_cons, elem_of_nil. lia.
Defined.

(** C8. At any point of a run, a response that is not [None] and has no key
    ["id"] ends the function at once through [exit] with the
    unexpected-response text: nothing is printed as a success, there is no
    sleep and no further call of [next_chunk], and the retry counter keeps
    its value. *)
Theorem response_without_id_exits
    (random : nat -> Q) (pre post : list chunk_result)
    (r : gmap string string) (evs : list event) (st : state) :
  resumable_upload random pre = (evs, Running st) ->
  r !! "id"%string = None ->
  resumable_upload random (pre ++ Return (Some r) :: post)
  = (evs ++ [EPrint MsgUploading; ENextChunk],
     Exited (set_response (Some r) st) (MsgUnexpected r)).
Proof.
  unfold resumable_upload. intros Hpre Hid.
  rewrite (while_loop_app _ _ _ _ _ _ Hpre).
  pose proof (while_loop_running _ _ _ _ _ Hpre) as Hr.
  simpl. rewrite Hr. unfold iteration, try_statement. rewrite Hid.
  reflexivity.
Qed.

Lemma response_without_id_exits_witness :
  resumable_upload (fun _ => 1 # 2)%Q
    ([Return None] ++ Return (Some {[ "kind"%string := "youtube#video"%string ]})
       :: [Return None])
  = ([EPrint MsgUploading; ENextChunk] ++ [EPrint MsgUploading; ENextChunk],
     Exited (set_response (Some {[ "kind"%string := "youtube#video"%string ]}) initial)
       (MsgUnexpected {[ "kind"%string := "youtube#video"%string ]})).
Proof.
  apply (response_without_id_exits (fun _ => 1 # 2)%Q [Return None] [Return None]).
  - reflexivity.
  - vm_compute. reflexivity.
Defined.

(** ** Classification of failures *)



(** ** The [error] variable is never cleared *)

Section StickyError.

Variable random : nat -> Q.

(** The [if] statement once [error] is set, below and at the ceiling. *)
Lemma backoff_sleeps st m :
  error st = Some m -> retry st < MAX_RETRIES ->
  backoff random st
  = ([EPrint m;
      EPrint (MsgSleeping (random (draws st) * inject_Z (2 ^ (retry st + 1))));
      ESleep (random (draws st) * inject_Z (2 ^ (retry st + 1)))],
     Normal {| response := response st; error := Some m;
               retry := retry st + 1; draws := S (draws st) |}).
Proof.
  intros He Hlt. unfold backoff. rewrite He.
  destruct (decide (retry st + 1 > MAX_RETRIES)); [lia | reflexivity].
Qed.

Lemma backoff_gives_up st m :
  error st = Some m -> retry st >= MAX_RETRIES ->
  backoff random st
  = ([EPrint m],
     SystemExit {| response := response st; error := Some m;
                   retry := retry st + 1; draws := draws st |} MsgGiveUp).
Proof.
  intros He Hge. unfold backoff. rewrite He.
  destruct (decide (retry st + 1 > MAX_RETRIES)); [reflexivity | lia].
Qed.

Lemma backoff_idle st : error st = None -> backoff random st = ([], Normal st).
Proof. intros He. unfold backoff. rewrite He. reflexivity. Qed.

(** Once set, [error] stays set: no statement of the loop assigns [None]. *)
Lemma iteration_error st c evs st' :
  iteration random st c = (evs, Normal st') ->
  is_Some (error st) \/ retriable c ->
  is_Some (error st').
Proof.
  unfold iteration, try_statement, backoff.
  destruct c as [[r|]|e]; simpl.
  - destruct (r !! "id"%string); [|discriminate]. simpl.
    destruct (error st) eqn:E.
    + destruct (decide _); intros H; inversion H; subst; simpl; eauto.
    + intros _ [[? ?]|[]]; discriminate.
  - destruct (error st) eqn:E.
    + destruct (decide _); intros H; inversion H; subst; simpl; eauto.
    + intros _ [[? ?]|[]]; discriminate.
  - destruct (except_clauses e) as [m|]; [|discriminate]. simpl.
    destruct (decide _); intros H; inversion H; subst; simpl; eauto.
Qed.

Lemma while_loop_error chunks : forall st evs st',
  while_loop random st chunks = (evs, Running st') ->
  is_Some (error st) \/ Exists retriable chunks ->
  is_Some (error st').
Proof.
  induction chunks as [|c chunks IH]; intros st evs st'; simpl.
  - destruct (response st); intros H; inversion H; subst.
    intros [Hs|Hex]; [exact Hs | inversion Hex].
  - destruct (response st); [discriminate|].
    destruct (iteration random st c) as [e [s|s m|s x]] eqn:It;
      try discriminate.
    destruct (while_loop random s chunks) as [e' r] eqn:W.
    intros H; inversion H; subst. intros Hor.
    apply (IH _ _ _ W).
    destruct Hor as [Hs|Hex].
    + left. eapply iteration_error; eauto.
    + apply Exists_cons in Hex. destruct Hex as [Hc|Hex].
      * left. eapply iteration_error; eauto.
      * right. exact Hex.
Qed.

(** A run of retriable failures that stays below the ceiling: each one
    increments [retry] and draws one random number. *)
Lemma failures_keep_running fails : forall st,
  Forall retriable fails ->
  response st = None ->
  retry st + Z.of_nat (length fails) <= MAX_RETRIES ->
  exists evs st',
    while_loop random st fails = (evs, Running st')
    /\ response st' = None
    /\ retry st' = retry st + Z.of_nat (length fails)
    /\ draws st' = (draws st + length fails)%nat
    /\ length (sleeps evs) = length fails.
Proof.
  induction fails as [|c fails IH]; intros st Hall Hr Hle.
  - exists [], st. simpl. rewrite Hr.
    repeat split; [lia | lia].
  - apply Forall_cons in Hall. destruct Hall as [Hc Hall].
    destruct c as [r|e]; [destruct Hc|]. destruct Hc as [m Hm].
    simpl length in Hle.
    destruct (IH {| response := None; error := Some m;
                    retry := retry st + 1; draws := S (draws st) |}
                Hall eq_refl) as (evs & st' & HW & Hr' & Hret & Hdr & Hsl).
    { simpl. lia. }
    simpl in Hret, Hdr.
    eexists _, st'. simpl while_loop. rewrite Hr.
    unfold iteration, try_statement. rewrite Hm.
    rewrite (backoff_sleeps _ m); [|reflexivity|simpl; lia].
    simpl response. rewrite Hr. simpl error. simpl retry. simpl draws.
    rewrite HW. repeat split.
    + exact Hr'.
    + simpl length. lia.
    + simpl length. lia.
    + simpl. rewrite Hsl. reflexivity.
Qed.

End StickyError.

(** ** What the stale [error] does to a run *)

(** Progress while no failure has happened yet: the loop goes on, nothing
    but the announcement and the call is recorded, no variable changes. *)
Lemma progress_without_failure
    (random : nat -> Q) (pre : list chunk_result) (evs : list event)
    (st : state) :
  resumable_upload random pre = (evs, Running st) ->
  error st = None ->
  resumable_upload random (pre ++ [Return None])
  = (evs ++ [EPrint MsgUploading; ENextChunk], Running st).
Proof.
  unfold resumable_upload. intros Hpre He.
  pose proof (while_loop_running _ _ _ _ _ Hpre) as Hr.
  rewrite (while_loop_app _ _ _ _ _ _ Hpre).
  simpl. rewrite Hr. unfold iteration, try_statement.
  rewrite (set_response_None _ Hr), (backoff_idle _ _ He), Hr.
  reflexivity.
Qed.

(** C3 (as the code behaves). Once a retriable failure has occurred, a
    later result of [next_chunk] that is mere progress (no response yet, no
    exception) is treated as one more failure: the stale [error] text is
    printed again, [retry] is incremented, a random number is drawn and the
    loop sleeps before the next call. *)
Theorem progress_after_failure_backs_off
    (random : nat -> Q) (pre : list chunk_result) (evs : list event)
    (st : state) :
  resumable_upload random pre = (evs, Running st) ->
  Exists retriable pre ->
  retry st < MAX_RETRIES ->
  exists m,
    error st = Some m
    /\ resumable_upload random (pre ++ [Return None])
       = (evs ++
            [EPrint MsgUploading; ENextChunk; EPrint m;
             EPrint (MsgSleeping
                       (random (draws st) * inject_Z (2 ^ (retry st + 1))));
             ESleep (random (draws st) * inject_Z (2 ^ (retry st + 1)))],
          Running {| response := None; error := Some m;
                     retry := retry st + 1; draws := S (draws st) |}).
Proof.
  unfold resumable_upload. intros Hpre Hex Hlt.
  pose proof (while_loop_running _ _ _ _ _ Hpre) as Hr.
  destruct (while_loop_error _ _ _ _ _ Hpre (or_intror Hex)) as [m Hm].
  exists m. split; [exact Hm|].
  rewrite (while_loop_app _ _ _ _ _ _ Hpre).
  simpl. rewrite Hr. unfold iteration, try_statement.
  rewrite (set_response_None _ Hr), (backoff_sleeps _ _ m Hm Hlt), Hr.
  reflexivity.
Qed.

Lemma progress_after_failure_backs_off_witness :
  exists m,
    error {| response := None; error := Some (MsgRetriable (IOError "reset"));
             retry := 1; draws := 1 |} = Some m
    /\ resumable_upload (fun _ => 1 # 2)%Q
         ([Raise (IOError "reset")] ++ [Return None])
       = ([EPrint MsgUploading; ENextChunk;
           EPrint (MsgRetriable (IOError "reset"));
           EPrint (MsgSleeping ((1 # 2) * inject_Z (2 ^ 1)));
           ESleep ((1 # 2) * inject_Z (2 ^ 1))] ++
            [EPrint MsgUploading; ENextChunk; EPrint m;
             EPrint (MsgSleeping ((1 # 2) * inject_Z (2 ^ (1 + 1))));
             ESleep ((1 # 2) * inject_Z (2 ^ (1 + 1)))],
          Running {| response := None; error := Some m;
                     retry := 1 + 1; draws := 2 |}).
Proof.
  apply (progress_after_failure_backs_off (fun _ => 1 # 2)%Q
           [Raise (IOError "reset")]
           [EPrint MsgUploading; ENextChunk;
            EPrint (MsgRetriable (IOError "reset"));
            EPrint (MsgSleeping ((1 # 2) * inject_Z (2 ^ 1)));
            ESleep ((1 # 2) * inject_Z (2 ^ 1))]
           {| response := None; error := Some (MsgRetriable (IOError "reset"));
              retry := 1; draws := 1 |}).
  - reflexivity.
  - apply Exists_cons_hd. simpl. eexists. reflexivity.
  - simpl. unfold MAX_RETRIES. lia.
Defined.

(** Eleven retriable failures in a row: the loop sleeps ten times and, at
    the eleventh, [retry] becomes 11, which is greater than [MAX_RETRIES],
    and the function ends through [exit] with the give-up text. *)
Lemma eleven_failures_exhaust
    (random : nat -> Q) (fails : list chunk_result) (e : exn) (m : message) :
  length fails = 10%nat ->
  Forall retriable fails ->
  except_clauses e = Some m ->
  exists evs,
    length (sleeps evs) = 10%nat
    /\ resumable_upload random (fails ++ [Raise e])
       = (evs ++ [EPrint MsgUploading; ENextChunk; EPrint m],
          Exited {| response := None; error := Some m;
                    retry := 11; draws := 10 |} MsgGiveUp).
Proof.
  intros Hlen Hall Hm.
  destruct (failures_keep_running random fails initial Hall eq_refl)
    as (evs & st & HW & Hr & Hret & Hdr & Hsl).
  { rewrite Hlen. simpl. unfold MAX_RETRIES. lia. }
  rewrite Hlen in *. simpl in Hret, Hdr.
  exists evs. split; [exact Hsl|].
  unfold resumable_upload. rewrite (while_loop_app _ _ _ _ _ _ HW).
  simpl. rewrite Hr. unfold iteration, try_statement. rewrite Hm.
  rewrite (backoff_gives_up _ _ m);
    [|reflexivity | simpl; rewrite Hret; unfold MAX_RETRIES; lia].
  simpl. rewrite Hr, Hret, Hdr. reflexivity.
Qed.

(** C2 (as the code behaves). Ten retriable failures in a row followed by
    a response that carries an id: the success text is printed, then the
    stale [error] is printed, [retry] becomes 11 and the function ends
    through [exit] with the give-up text instead of returning. *)
Theorem ten_failures_then_complete_gives_up
    (random : nat -> Q) (fails : list chunk_result)
    (r : gmap string string) (id : string) :
  length fails = 10%nat ->
  Forall retriable fails ->
  r !! "id"%string = Some id ->
  exists evs m,
    length (sleeps evs) = 10%nat
    /\ resumable_upload random (fails ++ [Return (Some r)])
       = (evs ++ [EPrint MsgUploading; ENextChunk; EPrint (MsgUploaded id);
                  EPrint m],
          Exited {| response := Some r; error := Some m;
                    retry := 11; draws := 10 |} MsgGiveUp).
Proof.
  intros Hlen Hall Hid.
  destruct (failures_keep_running random fails initial Hall eq_refl)
    as (evs & st & HW & Hr & Hret & Hdr & Hsl).
  { rewrite Hlen. simpl. unfold MAX_RETRIES. lia. }
  assert (Hex : Exists retriable fails).
  { destruct fails as [|c fails]; [discriminate|].
    apply Forall_cons in Hall. apply Exists_cons_hd. tauto. }
  destruct (while_loop_error _ _ _ _ _ HW (or_intror Hex)) as [m Hm].
  rewrite Hlen in *. simpl in Hret, Hdr.
  exists evs, m. split; [exact Hsl|].
  unfold resumable_upload. rewrite (while_loop_app _ _ _ _ _ _ HW).
  simpl. rewrite Hr. unfold iteration, try_statement. rewrite Hid.
  rewrite (backoff_gives_up _ _ m);
    [|exact Hm | simpl; rewrite Hret; unfold MAX_RETRIES; lia].
  simpl. rewrite Hret, Hdr. reflexivity.
Qed.

Lemma ten_failures_then_complete_gives_up_witness :
  exists evs m,
    length (sleeps evs) = 10%nat
    /\ resumable_upload (fun _ => 1 # 2)%Q
         (replicate 10 (Raise (IOError "reset"))
            ++ [Return (Some {[ "id"%string := "dQw4"%string ]})])
       = (evs ++ [EPrint MsgUploading; ENextChunk;
                  EPrint (MsgUploaded "dQw4"); EPrint m],
          Exited {| response := Some {[ "id"%string := "dQw4"%string ]};
                    error := Some m; retry := 11; draws := 10 |} MsgGiveUp).
Proof.
  apply (ten_failures_then_complete_gives_up (fun _ => 1 # 2)%Q
           (replicate 10 (Raise (IOError "reset")))
           {[ "id"%string := "dQw4"%string ]} "dQw4").
  - reflexivity.
  - simpl replicate.
    repeat (apply List.Forall_cons; [simpl; eexists; reflexivity|]).
    apply List.Forall_nil.
  - vm_compute. reflexivity.
Defined.

(** Fewer than ten failures followed by a response with an id: the function
    returns, after one more increment of [retry] and one more sleep caused
    by the stale [error]. *)
Lemma failures_then_complete_returns
    (random : nat -> Q) (fails : list chunk_result)
    (r : gmap string string) (id : string) :
  fails <> [] ->
  (length fails < 10)%nat ->
  Forall retriable fails ->
  r !! "id"%string = Some id ->
  exists evs m d,
    length (sleeps evs) = length fails
    /\ resumable_upload random (fails ++ [Return (Some r)])
       = (evs ++ [EPrint MsgUploading; ENextChunk; EPrint (MsgUploaded id);
                  EPrint m; EPrint (MsgSleeping d); ESleep d],
          Returned {| response := Some r; error := Some m;
                      retry := Z.of_nat (length fails) + 1;
                      draws := S (length fails) |}).
Proof.
  intros Hne Hlen Hall Hid.
  destruct (failures_keep_running random fails initial Hall eq_refl)
    as (evs & st & HW & Hr & Hret & Hdr & Hsl).
  { simpl. unfold MAX_RETRIES. lia. }
  assert (Hex : Exists retriable fails).
  { destruct fails as [|c fails]; [congruence|].
    apply Forall_cons in Hall. apply Exists_cons_hd. tauto. }
  destruct (while_loop_error _ _ _ _ _ HW (or_intror Hex)) as [m Hm].
  simpl in Hret, Hdr.
  exists evs, m. eexists. split; [exact Hsl|].
  unfold resumable_upload. rewrite (while_loop_app _ _ _ _ _ _ HW).
  simpl. rewrite Hr. unfold iteration, try_statement. rewrite Hid.
  rewrite (backoff_sleeps _ _ m);
    [|exact Hm | simpl; rewrite Hret; unfold MAX_RETRIES; lia].
  simpl. rewrite Hret, Hdr. reflexivity.
Qed.

(** ** Termination *)

(** A list of results that contains one after which the loop cannot go on
    never leaves the loop [Running]: the function returns, exits or
    raises. *)
Lemma upload_terminates (random : nat -> Q) (chunks : list chunk_result) :
  Exists ends_upload chunks ->
  forall st st', snd (while_loop random st chunks) <> Running st'.
Proof.
  induction chunks as [|c chunks IH]; intros Hex st st'.
  - inversion Hex.
  - simpl. destruct (response st) eqn:Hr; [discriminate|].
    apply Exists_cons in Hex.
    destruct (iteration random st c) as [evs [s|s m|s x]] eqn:It;
      try discriminate.
    destruct (while_loop random s chunks) as [evs' r] eqn:W. simpl.
    destruct Hex as [Hc|Hex].
    + assert (Hs : is_Some (response s)).
      { revert It. unfold iteration, try_statement, backoff.
        destruct c as [[r0|]|e]; simpl in Hc; [| destruct Hc |].
        - destruct (r0 !! "id"%string); [|discriminate]. simpl.
          destruct (error st); [destruct (decide _)|];
            intros H; inversion H; subst; simpl; eauto.
        - rewrite Hc. discriminate. }
      destruct Hs as [r0 Hr0]. destruct chunks; simpl in W; rewrite Hr0 in W;
        inversion W; discriminate.
    + specialize (IH Hex s st'). rewrite W in IH. exact IH.
Qed.

(** C1 (as the code behaves). Ten 503 errors followed by a response with
    id ["v1"]: the trace reports the upload of ["v1"] as successful, and the
    function then ends through [exit] with the give-up text, [retry] being
    11: success and retry exhaustion are both reported for one upload. *)
Theorem success_and_exhaustion_both_reported :
  let run :=
    resumable_upload (fun _ => 1 # 2)%Q
      (replicate 10 (Raise (HttpError 503 "backend error"))
         ++ [Return (Some {[ "id"%string := "v1"%string ]})]) in
  uploaded (fst run) = ["v1"%string]
  /\ snd run
     = Exited {| response := Some {[ "id"%string := "v1"%string ]};
                 error := Some (MsgRetriableHttp 503 "backend error");
                 retry := 11; draws := 10 |} MsgGiveUp.
Proof. vm_compute. split; reflexivity. Qed.


(** ** The backoff sleeps *)

(** Arithmetic of a number of [0, 1) scaled by a power of two. *)

Lemma scaled_draw_bounds (u : Q) (k hi : Z) :
  (0 <= u)%Q -> (u < 1)%Q -> k <= hi -> 0 <= hi ->
  (0 <= u * inject_Z (2 ^ k))%Q /\ (u * inject_Z (2 ^ k) < inject_Z (2 ^ hi))%Q.
Proof.
  intros H0 H1 Hk Hhi.
  assert (Hp : 0 <= 2 ^ k) by (apply Z.pow_nonneg; lia).
  assert (Hq : 2 ^ k <= 2 ^ hi).
  { destruct (Z_lt_le_dec k 0) as [Hn|Hn].
    - rewrite (Z.pow_neg_r _ _ Hn). apply Z.pow_nonneg. lia.
    - apply Z.pow_le_mono_r; lia. }
  assert (Hh : 0 < 2 ^ hi) by (apply Z.pow_pos_nonneg; lia).
  rewrite Zle_Qle in Hp, Hq. rewrite Zlt_Qlt in Hh.
  revert Hp Hq Hh. generalize (inject_Z (2 ^ k)) (inject_Z (2 ^ hi)).
  intros P B Hp Hq Hh. change (inject_Z 0) with 0%Q in *.
  split; [nra|].
  destruct (Qlt_le_dec P B); nra.
Qed.

Lemma scaled_draw_below (u : Q) (k : Z) :
  (0 <= u)%Q -> (u < 1)%Q -> 0 <= k ->
  (u * inject_Z (2 ^ k) < inject_Z (2 ^ k))%Q.
Proof.
  intros H0 H1 Hk.
  assert (Hh : 0 < 2 ^ k) by (apply Z.pow_pos_nonneg; lia).
  rewrite Zlt_Qlt in Hh. revert Hh. generalize (inject_Z (2 ^ k)).
  intros P Hh. change (inject_Z 0) with 0%Q in *. nra.
Qed.

Section Backoff.

Variable random : nat -> Q.

Lemma sleeps_app (a b : list event) : sleeps (a ++ b) = sleeps a ++ sleeps b.
Proof.
  induction a as [|[m| |d] a IH]; simpl; rewrite ?IH; reflexivity.
Qed.

(** One pass through the body of the loop either does not sleep and leaves
    [retry] and the random source alone, or sleeps exactly once: then
    [retry] was incremented, is at most [MAX_RETRIES], and the duration is
    the next random number times [2 ** retry]. *)
Lemma iteration_sleep (st : state) (c : chunk_result) (evs : list event)
    (f : flow) :
  iteration random st c = (evs, f) ->
  (sleeps evs = []
   /\ forall st', f = Normal st' ->
        retry st' = retry st /\ draws st' = draws st)
  \/ (exists st',
        f = Normal st'
        /\ retry st' = retry st + 1
        /\ retry st' <= MAX_RETRIES
        /\ draws st' = S (draws st)
        /\ sleeps evs = [(random (draws st) * inject_Z (2 ^ retry st'))%Q]).
Proof.
  unfold iteration, try_statement, backoff.
  destruct c as [[r|]|e]; simpl.
  - destruct (r !! "id"%string); simpl.
    + destruct (error st); [destruct (decide _)|];
        intros H; inversion H; subst; simpl.
      * left. split; [reflexivity | discriminate].
      * right. eexists. repeat split; simpl; lia.
      * left. split; [reflexivity|]. intros st' [= <-]. split; reflexivity.
    + intros H; inversion H; subst. left. split; [reflexivity | discriminate].
  - destruct (error st); [destruct (decide _)|];
      intros H; inversion H; subst; simpl.
    + left. split; [reflexivity | discriminate].
    + right. eexists. repeat split; simpl; lia.
    + left. split; [reflexivity|]. intros st' [= <-]. split; reflexivity.
  - destruct (except_clauses e); simpl.
    + destruct (decide _); intros H; inversion H; subst; simpl.
      * left. split; [reflexivity | discriminate].
      * right. eexists. repeat split; simpl; lia.
    + intros H; inversion H; subst. left. split; [reflexivity | discriminate].
Qed.

(** While the loop runs, [retry] and the number of random draws both count
    the sleeps performed so far. *)
Lemma while_loop_counters (chunks : list chunk_result) :
  forall (st : state) (evs : list event) (st' : state),
    while_loop random st chunks = (evs, Running st') ->
    retry st' = retry st + Z.of_nat (length (sleeps evs))
    /\ draws st' = (draws st + length (sleeps evs))%nat.
Proof.
  induction chunks as [|c chunks IH]; intros st evs st'; simpl.
  - destruct (response st); intros H; inversion H; subst. simpl. lia.
  - destruct (response st); [discriminate|].
    destruct (iteration random st c) as [e f] eqn:It.
    destruct (iteration_sleep _ _ _ _ It) as [[Hs Hf]|(s & -> & Hr & _ & Hd & Hs)].
    + destruct f as [s|s m|s x]; try discriminate.
      destruct (while_loop random s chunks) as [e' r] eqn:W.
      intros H; inversion H; subst.
      destruct (Hf s eq_refl) as [Hr Hd].
      destruct (IH _ _ _ W) as [IHr IHd].
      rewrite sleeps_app, Hs. simpl. lia.
    + destruct (while_loop random s chunks) as [e' r] eqn:W.
      intros H; inversion H; subst.
      destruct (IH _ _ _ W) as [IHr IHd].
      rewrite sleeps_app, Hs. simpl length. lia.
Qed.

(** Every sleep of every run, from any state, is shorter than
    [2 ** MAX_RETRIES] seconds and not negative. *)
Lemma while_loop_sleeps_bounded (chunks : list chunk_result) :
  unit_interval random ->
  forall (st : state) (evs : list event) (r : result),
    while_loop random st chunks = (evs, r) ->
    forall d, In d (sleeps evs) ->
      (0 <= d)%Q /\ (d < inject_Z (2 ^ MAX_RETRIES))%Q.
Proof.
  intros Hu. induction chunks as [|c chunks IH]; intros st evs r; simpl.
  - destruct (response st); intros H; inversion H; subst; intros d [].
  - destruct (response st); [intros H; inversion H; subst; intros d []|].
    destruct (iteration random st c) as [e f] eqn:It.
    assert (He : forall d, In d (sleeps e) ->
                   (0 <= d)%Q /\ (d < inject_Z (2 ^ MAX_RETRIES))%Q).
    { destruct (iteration_sleep _ _ _ _ It)
        as [[Hs _]|(s & _ & _ & Hle & _ & Hs)]; rewrite Hs.
      - intros d [].
      - intros d [<-|[]]. destruct (Hu (draws st)) as [H0 H1].
        apply scaled_draw_bounds; [exact H0 | exact H1 | exact Hle |].
        unfold MAX_RETRIES. lia. }
    destruct f as [s|s m|s x].
    + destruct (while_loop random s chunks) as [e' r'] eqn:W.
      intros H; inversion H; subst. intros d. rewrite sleeps_app.
      intros Hin. apply in_app_or in Hin. destruct Hin as [Hin|Hin].
      * apply He; exact Hin.
      * eapply IH; eauto.
    + intros H; inversion H; subst. exact He.
    + intros H; inversion H; subst. exact He.
Qed.

End Backoff.

(** C6. At any point of a run, when a pass through the loop sleeps, the
    retry counter has just been incremented to some [k], [k] is the number
    of sleeps of the run including this one, the duration is the random
    number drawn for this sleep (the [k]-th of the source, used by no
    earlier sleep) times [2 ** k], and it lies in the interval
    [0, 2 ** k). *)
Theorem backoff_sleep_duration
    (random : nat -> Q) (pre : list chunk_result) (c : chunk_result)
    (evs evs' : list event) (st st' : state) (d : Q) :
  unit_interval random ->
  resumable_upload random pre = (evs, Running st) ->
  iteration random st c = (evs', Normal st') ->
  In d (sleeps evs') ->
  retry st' = retry st + 1
  /\ retry st' = Z.of_nat (S (length (sleeps evs)))
  /\ d = (random (length (sleeps evs)) * inject_Z (2 ^ retry st'))%Q
  /\ (0 <= d)%Q
  /\ (d < inject_Z (2 ^ retry st'))%Q.
Proof.
  intros Hu Hpre It Hin.
  destruct (while_loop_counters _ _ _ _ _ Hpre) as [Hr Hd].
  simpl in Hr, Hd.
  destruct (iteration_sleep _ _ _ _ _ It)
    as [[Hs _]|(s & [= <-] & Hr' & Hle & Hd' & Hs)];
    rewrite Hs in Hin; [destruct Hin|].
  destruct Hin as [<-|[]]. rewrite Hd.
  destruct (Hu (length (sleeps evs))) as [H0 H1].
  repeat split.
  - exact Hr'.
  - lia.
  - apply scaled_draw_bounds with (hi := retry st'); [assumption..|lia|lia].
  - apply scaled_draw_below; [assumption..|lia].
Qed.

Lemma backoff_sleep_duration_witness :
  retry {| response := None; error := Some (MsgRetriable (IOError "reset"));
           retry := 1; draws := 1 |} = retry initial + 1
  /\ retry {| response := None; error := Some (MsgRetriable (IOError "reset"));
              retry := 1; draws := 1 |} = Z.of_nat (S (length (sleeps [])))
  /\ ((1 # 2) * inject_Z (2 ^ 1))%Q
     = ((1 # 2) * inject_Z (2 ^ retry
            {| response := None;
               error := Some (MsgRetriable (IOError "reset"));
               retry := 1; draws := 1 |}))%Q
  /\ (0 <= (1 # 2) * inject_Z (2 ^ 1))%Q
  /\ ((1 # 2) * inject_Z (2 ^ 1)
      < inject_Z (2 ^ retry
            {| response := None;
               error := Some (MsgRetriable (IOError "reset"));
               retry := 1; draws := 1 |}))%Q.
Proof.
  apply (backoff_sleep_duration (fun _ => 1 # 2)%Q [] (Raise (IOError "reset"))
           [] [EPrint MsgUploading; ENextChunk;
               EPrint (MsgRetriable (IOError "reset"));
               EPrint (MsgSleeping ((1 # 2) * inject_Z (2 ^ 1)));
               ESleep ((1 # 2) * inject_Z (2 ^ 1))]
           initial
           {| response := None; error := Some (MsgRetriable (IOError "reset"));
              retry := 1; draws := 1 |}).
  - intros n. split; vm_compute; congruence.
  - reflexivity.
  - reflexivity.
  - simpl. left. reflexivity.
Defined.

(** ** The longest sleep *)

(** No run sleeps for [2 ** 10] seconds or more. *)
Lemma sleeps_below_ceiling
    (random : nat -> Q) (chunks : list chunk_result) (d : Q) :
  unit_interval random ->
  In d (sleeps (fst (resumable_upload random chunks))) ->
  (d < inject_Z (2 ^ MAX_RETRIES))%Q.
Proof.
  intros Hu Hin. unfold resumable_upload in Hin.
  destruct (while_loop random initial chunks) as [evs r] eqn:W.
  apply (while_loop_sleeps_bounded random chunks Hu _ _ _ W d Hin).
Qed.

(** After ten failures in a row the tenth sleep lasts the tenth random
    number times [2 ** 10]. *)
Lemma tenth_sleep (u : Q) :
  In (u * inject_Z (2 ^ 10))%Q
    (sleeps (fst (resumable_upload (fun _ => u)
                    (replicate 10 (Raise (IOError "reset")))))).
Proof.
  cbv [resumable_upload replicate while_loop initial response iteration
       try_statement except_clauses set_error backoff error retry draws
       sleeps fst app].
  repeat (destruct (decide _) as [Hgt|_];
          [exfalso; revert Hgt; unfold MAX_RETRIES; simpl; lia|]).
  simpl. do 9 right. left. reflexivity.
Qed.

(** C7 (as stated, refuted). [2 ** 11] seconds is not the least upper bound
    of the sleeps: 1024 is smaller than [2 ** 11], and no run with a random
    source in [0, 1) ever sleeps longer than 1024 seconds. *)
Lemma sleep_supremum_is_not_2_pow_11 : ~ sleep_supremum (inject_Z (2 ^ 11)).
Proof.
  intros [_ Hsup].
  destruct (Hsup (inject_Z (2 ^ 10))) as (random & chunks & d & Hu & Hin & Hlt).
  - vm_compute. reflexivity.
  - pose proof (sleeps_below_ceiling random chunks d Hu Hin) as Hd.
    unfold MAX_RETRIES in Hd. apply (Qlt_irrefl d).
    eapply Qlt_trans; eassumption.
Qed.

(** C7 (amended). The sleeps of the driver are bounded by
    [2 ** MAX_RETRIES = 2 ** 10] seconds: every sleep is strictly shorter,
    and sleeps as close to that bound as wanted occur, at the tenth retry
    of a run of ten failures. *)
Theorem sleep_supremum_is_2_pow_10 :
  sleep_supremum (inject_Z (2 ^ MAX_RETRIES)).
Proof.
  split.
  - intros random chunks d. apply sleeps_below_ceiling.
  - intros b Hb. unfold MAX_RETRIES in Hb.
    change (inject_Z (2 ^ 10)) with (1024 # 1)%Q in Hb.
    destruct (Qlt_le_dec b 0) as [Hneg|Hpos].
    + exists (fun _ => 0%Q), (replicate 10 (Raise (IOError "reset"))),
        (0 * inject_Z (2 ^ 10))%Q.
      split; [intros n; split; [apply Qle_refl | reflexivity]|].
      split; [apply tenth_sleep|].
      change (inject_Z (2 ^ 10)) with (1024 # 1)%Q. lra.
    + exists (fun _ => (b * (1 # 1024) + 1) * (1 # 2))%Q,
        (replicate 10 (Raise (IOError "reset"))),
        ((b * (1 # 1024) + 1) * (1 # 2) * inject_Z (2 ^ 10))%Q.
      split; [intros n; split; lra|].
      split; [apply tenth_sleep|].
      change (inject_Z (2 ^ 10)) with (1024 # 1)%Q. lra.
Qed.

(** ** The request body *)

Lemma str_split_nonempty (sep : Ascii.ascii) (s : string) :
  str_split sep s <> [].
Proof.
  destruct s as [|c s]; simpl; [discriminate|].
  destruct (Ascii.eqb c sep); [discriminate|].
  destruct (str_split sep s); discriminate.
Qed.

(** Joining the pieces with the separator gives the string back: nothing
    is trimmed, dropped or merged. *)
Lemma str_join_split (sep : Ascii.ascii) (s : string) :
  str_join (String sep EmptyString) (str_split sep s) = s.
Proof.
  induction s as [|c s IH]; simpl; [reflexivity|].
  pose proof (str_split_nonempty sep s) as Hne.
  destruct (Ascii.eqb c sep) eqn:E.
  - apply Ascii.eqb_eq in E. subst c.
    destruct (str_split sep s) as [|w ws]; [congruence|].
    change (str_join (String sep EmptyString) (EmptyString :: w :: ws))
      with (String sep (str_join (String sep EmptyString) (w :: ws))).
    rewrite IH. reflexivity.
  - destruct (str_split sep s) as [|w ws]; [congruence|].
    rewrite <- IH. destruct ws; reflexivity.
Qed.

(** No piece contains the separator. *)
Lemma str_split_pieces (sep : Ascii.ascii) (s : string) :
  Forall (fun w => occurrences sep w = O) (str_split sep s).
Proof.
  induction s as [|c s IH]; simpl.
  - apply List.Forall_cons; [reflexivity | apply List.Forall_nil].
  - destruct (Ascii.eqb c sep) eqn:E.
    + apply List.Forall_cons; [reflexivity | exact IH].
    + pose proof (str_split_nonempty sep s) as Hne.
      destruct (str_split sep s) as [|w ws]; [congruence|].
      apply Forall_cons in IH. destruct IH as [Hw Hws].
      apply List.Forall_cons; [|exact Hws]. simpl. rewrite E. exact Hw.
Qed.

(** There is one more piece than there are separators. *)
Lemma str_split_length (sep : Ascii.ascii) (s : string) :
  length (str_split sep s) = S (occurrences sep s).
Proof.
  induction s as [|c s IH]; simpl; [reflexivity|].
  destruct (Ascii.eqb c sep).
  - simpl. rewrite IH. reflexivity.
  - pose proof (str_split_nonempty sep s) as Hne.
    destruct (str_split sep s) as [|w ws]; [congruence|]. exact IH.
Qed.

(** C9. Whatever the other options are, the empty keywords string puts
    [None] (no tag list at all, not a list holding one empty tag) in the
    body, the keywords string ["a,b,c"] puts the tags ["a"], ["b"], ["c"]
    in that order, and the privacy status of the body is the
    [privacyStatus] option.  The scenario of the specification is the last
    conjunct. *)
Theorem request_tags_and_privacy :
  (forall f t d c p : string,
      snippet_tags (body_snippet (insert_body
        (build_insert (mkOptions f t d c EmptyString p)))) = None)
  /\ (forall f t d c p : string,
      snippet_tags (body_snippet (insert_body
        (build_insert (mkOptions f t d c "a,b,c" p))))
      = Some ["a"; "b"; "c"]%string)
  /\ (forall o : options,
      body_status_privacyStatus (insert_body (build_insert o))
      = privacyStatus o)
  /\ insert_body (build_insert
       (mkOptions "clip.mp4" "Demo" "Test Description" "22" EmptyString "unlisted"))
     = {| body_snippet :=
            {| snippet_title := "Demo";
               snippet_description := "Test Description";
               snippet_tags := None;
               snippet_categoryId := "22" |};
          body_status_privacyStatus := "unlisted" |}.
Proof. repeat split. Qed.

(** C10. For a keywords string that is not empty the tags are exactly its
    pieces between commas: joined with commas they give the keywords back,
    none contains a comma, and there is one more of them than there are
    commas, so that empty pieces are kept.  ["a,b,"] gives ["a"], ["b"],
    the empty string, and ["a,,b"] gives ["a"], the empty string, ["b"]. *)
Theorem tags_are_the_comma_split (o : options) :
  keywords o <> EmptyString ->
  exists tags : list string,
    snippet_tags (body_snippet (insert_body (build_insert o))) = Some tags
    /\ tags = str_split "," (keywords o)
    /\ str_join "," tags = keywords o
    /\ Forall (fun w => occurrences "," w = O) tags
    /\ length tags = S (occurrences "," (keywords o))
    /\ tags_of "a,b," = Some ["a"; "b"; EmptyString]%string
    /\ tags_of "a,,b" = Some ["a"; EmptyString; "b"]%string.
Proof.
  intros Hne. exists (str_split "," (keywords o)).
  split; [|split; [reflexivity|]].
  - simpl. unfold tags_of. destruct (keywords o); [congruence | reflexivity].
  - split; [apply str_join_split|].
    split; [apply str_split_pieces|].
    split; [apply str_split_length|].
    split; reflexivity.
Qed.

Lemma tags_are_the_comma_split_witness :
  exists tags : list string,
    snippet_tags (body_snippet (insert_body (build_insert
      (mkOptions "clip.mp4" "Demo" "Test Description" "22" "a,b," "public"))))
    = Some tags
    /\ tags = str_split "," "a,b,"
    /\ str_join "," tags = "a,b,"%string
    /\ Forall (fun w => occurrences "," w = O) tags
    /\ length tags = S (occurrences "," "a,b,")
    /\ tags_of "a,b," = Some ["a"; "b"; EmptyString]%string
    /\ tags_of "a,,b" = Some ["a"; EmptyString; "b"]%string.
Proof.
  apply (tags_are_the_comma_split
           (mkOptions "clip.mp4" "Demo" "Test Description" "22" "a,b," "public")).
  simpl. discriminate.
Defined.

(** * Further properties of the driver *)

Section Outcomes.

Variable random : nat -> Q.

Lemma uploaded_app (a b : list event) :
  uploaded (a ++ b) = uploaded a ++ uploaded b.
Proof.
  induction a as [|[[]| |] a IH]; simpl; rewrite ?IH; reflexivity.
Qed.

Lemma attempts_app (a b : list event) :
  (attempts (a ++ b) = attempts a + attempts b)%nat.
Proof.
  induction a as [|[| |] a IH]; simpl; rewrite ?IH; reflexivity.
Qed.

Lemma except_clauses_text (e : exn) (m : message) :
  except_clauses e = Some m -> error_text m.
Proof.
  destruct e as [status content|msg|msg|msg]; simpl;
    [destruct (decide _)|..]; intros H; inversion H; exact I.
Qed.

(** A loop entered with a response returns at once. *)
Lemma while_loop_done (st : state) (r : gmap string string)
    (chunks : list chunk_result) :
  response st = Some r -> while_loop random st chunks = ([], Returned st).
Proof. intros H. destruct chunks; simpl; rewrite H; reflexivity. Qed.

Ltac done_conj :=
  simpl; repeat split; try reflexivity; try assumption; try lia; eauto.

(** What one pass through the body of the loop can produce. *)
Lemma iteration_outcome (st : state) (c : chunk_result) (evs : list event)
    (f : flow) :
  response st = None ->
  good_error (error st) ->
  retry st <= MAX_RETRIES ->
  iteration random st c = (evs, f) ->
  match f with
  | Normal st' =>
      good_error (error st') /\ retry st' <= MAX_RETRIES
      /\ ((response st' = response st /\ uploaded evs = [])
          \/ (exists r0 id, response st' = Some r0
                /\ r0 !! "id"%string = Some id /\ uploaded evs = [id]))
  | SystemExit st' m =>
      (m = MsgGiveUp /\ retry st' = MAX_RETRIES + 1 /\ is_Some (error st')
       /\ ((response st' = response st /\ uploaded evs = [])
           \/ (exists r0 id, response st' = Some r0
                 /\ r0 !! "id"%string = Some id /\ uploaded evs = [id])))
      \/ (exists r0, m = MsgUnexpected r0 /\ response st' = Some r0
            /\ r0 !! "id"%string = None /\ uploaded evs = []
            /\ retry st' = retry st)
  | Propagate st' e =>
      c = Raise e /\ except_clauses e = None /\ uploaded evs = [] /\ st' = st
  end.
Proof.
  intros Hr Hg Hle. rewrite Hr. unfold iteration, try_statement, backoff.
  destruct c as [[r0|]|e]; simpl.
  - destruct (r0 !! "id"%string) as [id|] eqn:Hid; simpl.
    + destruct (error st) as [m0|] eqn:He; [destruct (decide _)|];
        intros H; inversion H; subst; clear H; simpl in *.
      * left. split; [reflexivity|]. split; [lia|]. split; [eauto|].
        right. exists r0, id. destruct m0; try contradiction; done_conj.
      * split; [exact Hg|]. split; [lia|].
        right. exists r0, id. destruct m0; try contradiction; done_conj.
      * rewrite He. split; [exact I|]. split; [lia|]. right. done_conj.
    + intros H; inversion H; subst; clear H. right. exists r0. done_conj.
  - destruct (error st) as [m0|] eqn:He; [destruct (decide _)|];
      intros H; inversion H; subst; clear H; simpl in *.
    + left. split; [reflexivity|]. split; [lia|]. split; [eauto|].
      left. destruct m0; try contradiction; done_conj.
    + split; [exact Hg|]. split; [lia|].
      left. destruct m0; try contradiction; simpl; done_conj.
    + rewrite He. split; [exact I|]. split; [lia|]. left. done_conj.
  - destruct (except_clauses e) as [m|] eqn:Hm; simpl.
    + pose proof (except_clauses_text _ _ Hm) as Ht.
      destruct (decide _); intros H; inversion H; subst; clear H; simpl in *.
      * left. split; [reflexivity|]. split; [lia|]. split; [eauto|].
        left. destruct m; try contradiction; done_conj.
      * split; [exact Ht|]. split; [lia|].
        left. destruct m; try contradiction; simpl; done_conj.
    + intros H; inversion H; subst; clear H. done_conj.
Qed.

(** What a run of the loop can produce, from a state in which no response
    has been received. *)
Lemma while_loop_outcome (chunks : list chunk_result) :
  forall (st : state) (evs : list event) (r : result),
    response st = None ->
    good_error (error st) ->
    retry st <= MAX_RETRIES ->
    while_loop random st chunks = (evs, r) ->
    match r with
    | Running st' => response st' = None /\ uploaded evs = []
    | Returned st' =>
        exists r0 id, response st' = Some r0
          /\ r0 !! "id"%string = Some id /\ uploaded evs = [id]
    | Exited st' m =>
        (m = MsgGiveUp /\ retry st' = MAX_RETRIES + 1 /\ is_Some (error st')
         /\ ((response st' = None /\ uploaded evs = [])
             \/ (exists r0 id, response st' = Some r0
                   /\ r0 !! "id"%string = Some id /\ uploaded evs = [id])))
        \/ (exists r0, m = MsgUnexpected r0 /\ response st' = Some r0
              /\ r0 !! "id"%string = None /\ uploaded evs = [])
    | Raised st' e =>
        except_clauses e = None /\ uploaded evs = [] /\ response st' = None
    end.
Proof.
  induction chunks as [|c chunks IH]; intros st evs r Hr Hg Hle; simpl;
    rewrite Hr.
  - intros H; inversion H; subst. split; [exact Hr | reflexivity].
  - destruct (iteration random st c) as [e f] eqn:It.
    pose proof (iteration_outcome _ _ _ _ Hr Hg Hle It) as Ho.
    rewrite Hr in Ho. destruct f as [s|s m|s x].
    + destruct Ho as (Hg' & Hle' & [[Hr' Hu]|(r0 & id & Hr' & Hid & Hu)]).
      * destruct (while_loop random s chunks) as [e' r'] eqn:W.
        intros H; inversion H; subst.
        pose proof (IH _ _ _ Hr' Hg' Hle' W) as HW.
        rewrite uploaded_app, Hu. simpl. exact HW.
      * rewrite (while_loop_done s r0 chunks Hr').
        intros H; inversion H; subst. rewrite app_nil_r. eauto.
    + intros H; inversion H; subst.
      destruct Ho as [(-> & Hret & He & Hup)|(r0 & -> & Hr' & Hid & Hu & _)].
      * left. repeat split; assumption.
      * right. exists r0. repeat split; assumption.
    + intros H; inversion H; subst.
      destruct Ho as (_ & Hx & Hu & ->). repeat split; assumption.
Qed.

Ltac acct :=
  repeat split; simpl; try lia; try discriminate;
  try (match goal with
       | H : Normal _ = Normal _ |- _ => inversion H; subst; simpl; auto
       end);
  try (intros []; fail).

(** The counters after one pass through the body of the loop. *)
Lemma iteration_accounting (st : state) (c : chunk_result)
    (evs : list event) (f : flow) :
  iteration random st c = (evs, f) ->
  attempts evs = 1%nat
  /\ ((sleeps evs = []
       /\ draws (flow_state f) = draws st
       /\ retry (flow_state f)
          = retry st + match f with SystemExit _ m => gave_up m | _ => 0 end
       /\ (forall st', f = Normal st' ->
             error st = None /\ error st' = None /\ ~ retriable c))
      \/ (exists st',
            f = Normal st'
            /\ retry st' = retry st + 1
            /\ retry st' <= MAX_RETRIES
            /\ draws st' = S (draws st)
            /\ is_Some (error st')
            /\ sleeps evs
               = [(random (draws st) * inject_Z (2 ^ retry st'))%Q])).
Proof.
  unfold iteration, try_statement, backoff.
  destruct c as [[r0|]|e]; simpl.
  - destruct (r0 !! "id"%string) as [id|]; simpl.
    + destruct (error st) as [m0|] eqn:He; [destruct (decide _)|];
        intros H; inversion H; subst; clear H; simpl;
        (split; [reflexivity|]).
      * left. acct.
      * right. eexists. split; [reflexivity|]. simpl. repeat split; eauto; lia.
      * left. acct.
    + intros H; inversion H; subst; clear H. split; [reflexivity|].
      left. acct.
  - destruct (error st) as [m0|] eqn:He; [destruct (decide _)|];
      intros H; inversion H; subst; clear H; simpl;
      (split; [reflexivity|]).
    + left. acct.
    + right. eexists. split; [reflexivity|]. simpl. repeat split; eauto; lia.
    + left. acct.
  - destruct (except_clauses e) as [m|] eqn:Hm; simpl.
    + destruct (decide _); intros H; inversion H; subst; clear H; simpl;
        (split; [reflexivity|]).
      * left. acct.
      * right. eexists. split; [reflexivity|]. simpl. repeat split; eauto; lia.
    + intros H; inversion H; subst; clear H. split; [reflexivity|].
      left. acct.
Qed.

(** The counters and the sleeps of a run, from a state in which [retry]
    equals the number of random numbers drawn. *)
Lemma while_loop_accounting (chunks : list chunk_result) :
  forall (st : state) (evs : list event) (r : result),
    retry st = Z.of_nat (draws st) ->
    (draws st <= 10)%nat ->
    while_loop random st chunks = (evs, r) ->
    exists n : nat,
      sleeps evs = map (nth_sleep random) (seq (draws st) n)
      /\ draws (final_state r) = (draws st + n)%nat
      /\ (draws st + n <= 10)%nat
      /\ retry (final_state r)
         = Z.of_nat (draws st + n)
           + match r with Exited _ m => gave_up m | _ => 0 end.
Proof.
  induction chunks as [|c chunks IH]; intros st evs r Hrd Hd10; simpl.
  - destruct (response st); intros H; inversion H; subst;
      exists O; simpl; repeat split; lia.
  - destruct (response st).
    { intros H; inversion H; subst. exists O; simpl; repeat split; lia. }
    destruct (iteration random st c) as [e f] eqn:It.
    destruct (iteration_accounting _ _ _ _ It)
      as [_ [(Hs & Hd & Hr & _)|(s & -> & Hr & Hle & Hd & _ & Hs)]].
    + destruct f as [s|s m|s x]; simpl in Hd, Hr.
      * destruct (while_loop random s chunks) as [e' r'] eqn:W.
        intros H; inversion H; subst.
        destruct (IH s e' r) as (n & Hn1 & Hn2 & Hn3 & Hn4);
          [lia | lia | exact W |].
        exists n. rewrite sleeps_app, Hs, Hn1, Hn2, Hn4, Hd. simpl.
        repeat split; lia.
      * intros H; inversion H; subst. exists O. rewrite Hs. simpl.
        repeat split; lia.
      * intros H; inversion H; subst. exists O. rewrite Hs. simpl.
        repeat split; lia.
    + destruct (while_loop random s chunks) as [e' r'] eqn:W.
      intros H; inversion H; subst.
      unfold MAX_RETRIES in Hle.
      destruct (IH s e' r) as (n & Hn1 & Hn2 & Hn3 & Hn4);
        [lia | lia | exact W |].
      exists (S n). rewrite sleeps_app, Hs, Hn1, Hn2, Hn4, Hd. simpl.
      unfold nth_sleep at 2.
      replace (retry s) with (Z.of_nat (S (draws st))) by lia.
      repeat split; lia.
Qed.

(** A pass through the body on a result that is not a retriable failure,
    while [error] is still [None], changes none of the counters. *)
Lemma iteration_quiet (st : state) (c : chunk_result) (evs : list event)
    (f : flow) :
  error st = None ->
  ~ retriable c ->
  iteration random st c = (evs, f) ->
  sleeps evs = []
  /\ error (flow_state f) = None
  /\ retry (flow_state f) = retry st
  /\ draws (flow_state f) = draws st.
Proof.
  intros He Hc. unfold iteration, try_statement, backoff.
  destruct c as [[r0|]|e]; simpl.
  - destruct (r0 !! "id"%string); simpl; rewrite ?He;
      intros H; inversion H; subst; simpl; auto.
  - rewrite He. intros H; inversion H; subst; simpl; auto.
  - destruct (except_clauses e) as [m|] eqn:Hm.
    + exfalso. apply Hc. simpl. rewrite Hm. eauto.
    + intros H; inversion H; subst; simpl; auto.
Qed.

Lemma while_loop_quiet (chunks : list chunk_result) :
  Forall (fun c => ~ retriable c) chunks ->
  forall (st : state) (evs : list event) (r : result),
    error st = None ->
    while_loop random st chunks = (evs, r) ->
    sleeps evs = []
    /\ error (final_state r) = None
    /\ retry (final_state r) = retry st
    /\ draws (final_state r) = draws st.
Proof.
  induction chunks as [|c chunks IH]; intros Hall st evs r He; simpl.
  - destruct (response st); intros H; inversion H; subst; simpl; auto.
  - destruct (response st); [intros H; inversion H; subst; simpl; auto|].
    apply Forall_cons in Hall. destruct Hall as [Hc Hall].
    destruct (iteration random st c) as [e f] eqn:It.
    destruct (iteration_quiet _ _ _ _ He Hc It) as (Hs & He' & Hr & Hd).
    destruct f as [s|s m|s x]; simpl in *.
    + destruct (while_loop random s chunks) as [e' r'] eqn:W.
      intros H; inversion H; subst.
      destruct (IH Hall _ _ _ He' W) as (Hs' & He2 & Hr2 & Hd2).
      rewrite sleeps_app, Hs, Hs'. repeat split; congruence.
    + intros H; inversion H; subst; simpl; auto.
    + intros H; inversion H; subst; simpl; auto.
Qed.

(** Once [error] is set every pass through the body increments [retry], so
    that the number of further calls of [next_chunk] is bounded. *)
Lemma while_loop_attempts (chunks : list chunk_result) :
  forall (st : state) (evs : list event) (r : result),
    is_Some (error st) ->
    retry st <= MAX_RETRIES ->
    while_loop random st chunks = (evs, r) ->
    Z.of_nat (attempts evs) <= MAX_RETRIES + 1 - retry st.
Proof.
  induction chunks as [|c chunks IH]; intros st evs r He Hle; simpl.
  - destruct (response st); intros H; inversion H; subst; simpl; lia.
  - destruct (response st); [intros H; inversion H; subst; simpl; lia|].
    destruct (iteration random st c) as [e f] eqn:It.
    destruct (iteration_accounting _ _ _ _ It)
      as [Ha [(_ & _ & _ & Hn)|(s & -> & Hr & Hle' & _ & He' & _)]].
    + destruct f as [s|s m|s x].
      * destruct (Hn s eq_refl) as [Hnone _]. rewrite Hnone in He.
        destruct He; discriminate.
      * intros H; inversion H; subst. lia.
      * intros H; inversion H; subst. lia.
    + destruct (while_loop random s chunks) as [e' r'] eqn:W.
      intros H; inversion H; subst.
      pose proof (IH _ _ _ He' Hle' W). rewrite attempts_app. lia.
Qed.

(** A run that has ended does not depend on what [next_chunk] would have
    done next. *)
Lemma while_loop_finished (chunks : list chunk_result) :
  forall (st : state) (evs : list event) (r : result)
         (more : list chunk_result),
    while_loop random st chunks = (evs, r) ->
    (forall st', r <> Running st') ->
    while_loop random st (chunks ++ more) = (evs, r).
Proof.
  induction chunks as [|c chunks IH]; intros st evs r more; simpl.
  - destruct (response st) eqn:Hr; intros H Hn; inversion H; subst.
    + destruct more; simpl; rewrite Hr; reflexivity.
    + exfalso. eapply Hn. reflexivity.
  - destruct (response st); [intros H _; exact H|].
    destruct (iteration random st c) as [e [s|s m|s x]]; try (intros H _; exact H).
    destruct (while_loop random s chunks) as [e' r'] eqn:W.
    intros H Hn; inversion H; subst.
    rewrite (IH _ _ _ more W Hn). reflexivity.
Qed.

(** Progress while [error] is [None] leaves the state alone. *)
Lemma while_loop_progress (k : nat) (st : state) (rest : list chunk_result) :
  response st = None ->
  error st = None ->
  while_loop random st (replicate k (Return None) ++ rest)
  = (progress_trace k ++ fst (while_loop random st rest),
     snd (while_loop random st rest)).
Proof.
  intros Hr He. induction k as [|k IH].
  - simpl. destruct (while_loop random st rest); reflexivity.
  - simpl replicate. simpl app. simpl while_loop. rewrite Hr.
    unfold iteration, try_statement.
    rewrite (set_response_None _ Hr), (backoff_idle _ _ He).
    simpl app. fold (replicate k (Return (None : option (gmap string string)))).
    rewrite IH. reflexivity.
Qed.

End Outcomes.

(** ** How a run can end *)

(** X1. An exception that leaves [resumable_upload] is never one that the
    loop retries: it is an [HttpError] whose status is not in
    [RETRIABLE_STATUS_CODES] or an exception of another kind.  No upload
    was reported as successful and no response had been received. *)
Theorem escaping_exception_is_not_retriable
    (random : nat -> Q) (chunks : list chunk_result) (evs : list event)
    (st : state) (e : exn) :
  resumable_upload random chunks = (evs, Raised st e) ->
  ((exists status content,
       e = HttpError status content /\ status ∉ RETRIABLE_STATUS_CODES)
   \/ (exists msg, e = OtherException msg))
  /\ uploaded evs = []
  /\ response st = None.
Proof.
  intros Hrun.
  pose proof (while_loop_outcome random chunks initial evs _ eq_refl I
                ltac:(unfold MAX_RETRIES; simpl; lia) Hrun) as (He & Hu & Hr).
  split; [|split; assumption].
  destruct e as [status content|msg|msg|msg]; simpl in He;
    try discriminate.
  - left. exists status, content. split; [reflexivity|].
    destruct (decide (status ∈ RETRIABLE_STATUS_CODES));
      [discriminate | assumption].
  - right. exists msg. reflexivity.
Qed.

Lemma escaping_exception_is_not_retriable_witness :
  ((exists status content,
       HttpError 404 "not found" = HttpError status content
       /\ status ∉ RETRIABLE_STATUS_CODES)
   \/ (exists msg, HttpError 404 "not found" = OtherException msg))
  /\ uploaded [EPrint MsgUploading; ENextChunk] = []
  /\ response initial = None.
Proof.
  apply (escaping_exception_is_not_retriable (fun _ => 1 # 2)%Q
           [Raise (HttpError 404 "not found")]).
  reflexivity.
Defined.

(** X2. [resumable_upload] ends through [exit] in two cases only.  Either
    it gives up: then [retry] is exactly 11 and the loop has slept exactly
    ten times.  Or the last response had no key ["id"]: then that response
    is the one named in the text, and nothing was reported as uploaded. *)
Theorem exit_reasons
    (random : nat -> Q) (chunks : list chunk_result) (evs : list event)
    (st : state) (m : message) :
  resumable_upload random chunks = (evs, Exited st m) ->
  (m = MsgGiveUp /\ retry st = 11 /\ length (sleeps evs) = 10%nat)
  \/ (exists r0, m = MsgUnexpected r0 /\ response st = Some r0
        /\ r0 !! "id"%string = None /\ uploaded evs = []).
Proof.
  intros Hrun.
  pose proof (while_loop_outcome random chunks initial evs _ eq_refl I
                ltac:(unfold MAX_RETRIES; simpl; lia) Hrun) as Ho.
  destruct (while_loop_accounting random chunks initial evs _ eq_refl
              ltac:(simpl; lia) Hrun) as (n & Hs & _ & _ & Hr).
  simpl in Hr, Ho.
  destruct Ho as [(-> & Hret & _)|(r0 & -> & Hresp & Hid & Hu)].
  - left. split; [reflexivity|]. unfold MAX_RETRIES in Hret.
    split; [exact Hret|]. rewrite Hs, length_map, length_seq.
    simpl in Hr. lia.
  - right. exists r0. repeat split; assumption.
Qed.

Lemma exit_reasons_witness :
  (MsgUnexpected {[ "kind"%string := "youtube#video"%string ]} = MsgGiveUp
   /\ retry (set_response
               (Some {[ "kind"%string := "youtube#video"%string ]}) initial)
      = 11
   /\ length (sleeps [EPrint MsgUploading; ENextChunk]) = 10%nat)
  \/ (exists r0,
        MsgUnexpected {[ "kind"%string := "youtube#video"%string ]}
        = MsgUnexpected r0
        /\ response (set_response
                       (Some {[ "kind"%string := "youtube#video"%string ]})
                       initial) = Some r0
        /\ r0 !! "id"%string = None
        /\ uploaded [EPrint MsgUploading; ENextChunk] = []).
Proof.
  apply (exit_reasons (fun _ => 1 # 2)%Q
           [Return (Some {[ "kind"%string := "youtube#video"%string ]})]).
  vm_compute. reflexivity.
Defined.

(** X3. When [resumable_upload] returns, the last response carries an id
    and exactly that id, once, was reported as successfully uploaded. *)
Theorem return_reports_the_video_id
    (random : nat -> Q) (chunks : list chunk_result) (evs : list event)
    (st : state) :
  resumable_upload random chunks = (evs, Returned st) ->
  exists r0 id,
    response st = Some r0 /\ r0 !! "id"%string = Some id
    /\ uploaded evs = [id].
Proof.
  intros Hrun.
  exact (while_loop_outcome random chunks initial evs _ eq_refl I
           ltac:(unfold MAX_RETRIES; simpl; lia) Hrun).
Qed.

Lemma return_reports_the_video_id_witness :
  exists r0 id,
    response {| response := Some {[ "id"%string := "v1"%string ]};
                error := None; retry := 0; draws := 0 |} = Some r0
    /\ r0 !! "id"%string = Some id
    /\ uploaded [EPrint MsgUploading; ENextChunk; EPrint (MsgUploaded "v1")]
       = [id].
Proof.
  apply (return_reports_the_video_id (fun _ => 1 # 2)%Q
           [Return (Some {[ "id"%string := "v1"%string ]})]).
  vm_compute. reflexivity.
Defined.

(** X4. In every run at most one upload is reported as successful, and the
    id reported is the one of the response held when the function ends;
    while the loop waits, after an escaping exception or after an
    unexpected response nothing has been reported. *)
Theorem at_most_one_success_report
    (random : nat -> Q) (chunks : list chunk_result) :
  uploaded (fst (resumable_upload random chunks)) = []
  \/ (exists r0 id,
        uploaded (fst (resumable_upload random chunks)) = [id]
        /\ response (final_state (snd (resumable_upload random chunks)))
           = Some r0
        /\ r0 !! "id"%string = Some id).
Proof.
  destruct (resumable_upload random chunks) as [evs r] eqn:Hrun.
  pose proof (while_loop_outcome random chunks initial evs _ eq_refl I
                ltac:(unfold MAX_RETRIES; simpl; lia) Hrun) as Ho.
  simpl. destruct r as [st|st|st m|st e]; simpl.
  - left. tauto.
  - right. destruct Ho as (r0 & id & ? & ? & ?). eauto.
  - destruct Ho as [(_ & _ & _ & [[_ Hu]|(r0 & id & ? & ? & ?)])
                   |(r0 & _ & _ & _ & Hu)]; eauto 10.
  - left. tauto.
Qed.

(** ** The sleeps of a whole run *)

(** X5. In every run the loop sleeps at most ten times, the [k]-th sleep
    (counted from 0) lasts the [k]-th random number times [2 ** (k + 1)],
    and [random.random()] has been called exactly once per sleep. *)
Theorem sleeps_of_a_run (random : nat -> Q) (chunks : list chunk_result) :
  exists n : nat,
    (n <= 10)%nat
    /\ sleeps (fst (resumable_upload random chunks))
       = map (nth_sleep random) (seq 0 n)
    /\ draws (final_state (snd (resumable_upload random chunks))) = n.
Proof.
  destruct (resumable_upload random chunks) as [evs r] eqn:Hrun.
  destruct (while_loop_accounting random chunks initial evs r eq_refl
              ltac:(simpl; lia) Hrun) as (n & Hs & Hd & Hn & _).
  exists n. simpl in *. repeat split; assumption.
Qed.

Lemma total_snoc (l : list Q) (d : Q) : (total (l ++ [d]) == total l + d)%Q.
Proof.
  induction l as [|x l IH]; simpl; [ring|]. rewrite IH. ring.
Qed.

Lemma pow2_double (n : nat) :
  (inject_Z (2 ^ Z.of_nat (S (S n))) == 2 * inject_Z (2 ^ Z.of_nat (S n)))%Q.
Proof.
  rewrite (Nat2Z.inj_succ (S n)), Z.pow_succ_r by lia.
  rewrite inject_Z_mult. reflexivity.
Qed.

Lemma pow2_le_2048 (n : nat) :
  (n <= 10)%nat -> (inject_Z (2 ^ Z.of_nat (S n)) <= 2048)%Q.
Proof.
  intros Hn. change 2048%Q with (inject_Z (2 ^ 11)). rewrite <- Zle_Qle.
  apply Z.pow_le_mono_r; lia.
Qed.

(** The first [n] sleeps add up to at most [2 ** (n + 1) - 2] seconds. *)
Lemma total_sleeps (random : nat -> Q) (n : nat) :
  unit_interval random ->
  (total (map (nth_sleep random) (seq 0 n)) + 2
   <= inject_Z (2 ^ Z.of_nat (S n)))%Q.
Proof.
  intros Hu. induction n as [|n IH].
  - simpl. vm_compute. discriminate.
  - rewrite seq_S, map_app. simpl map.
    change (0 + n)%nat with n.
    pose proof (total_snoc (map (nth_sleep random) (seq 0 n))
                  (nth_sleep random n)) as Hsn.
    pose proof (pow2_double n) as Hp.
    destruct (Hu n) as [H0 H1].
    pose proof (scaled_draw_below (random n) (Z.of_nat (S n)) H0 H1
                  ltac:(lia)) as Hlt.
    change (random n * inject_Z (2 ^ Z.of_nat (S n)))%Q
      with (nth_sleep random n) in Hlt.
    revert IH Hsn Hp Hlt.
    generalize (total (map (nth_sleep random) (seq 0 n) ++ [nth_sleep random n])),
      (total (map (nth_sleep random) (seq 0 n))), (nth_sleep random n),
      (inject_Z (2 ^ Z.of_nat (S (S n)))), (inject_Z (2 ^ Z.of_nat (S n))).
    intros T' T x P' P IH Hsn Hp Hlt. lra.
Qed.

(** X6. With random numbers in [0, 1), the sleeps of a run add up to less
    than 2046 seconds ([2 + 4 + ... + 1024], about 34 minutes). *)
Theorem total_sleep_below_2046
    (random : nat -> Q) (chunks : list chunk_result) :
  unit_interval random ->
  (total (sleeps (fst (resumable_upload random chunks))) < 2046)%Q.
Proof.
  intros Hu.
  destruct (resumable_upload random chunks) as [evs r] eqn:Hrun.
  destruct (while_loop_accounting random chunks initial evs r eq_refl
              ltac:(simpl; lia) Hrun) as (n & Hs & _ & Hn & _).
  simpl in *. rewrite Hs. destruct n as [|n].
  - simpl. reflexivity.
  - rewrite seq_S, map_app. simpl map.
    change (0 + n)%nat with n.
    pose proof (total_snoc (map (nth_sleep random) (seq 0 n))
                  (nth_sleep random n)) as Hsn.
    pose proof (total_sleeps random n Hu) as Ht.
    pose proof (pow2_double n) as Hp.
    pose proof (pow2_le_2048 (S n) Hn) as Hb.
    destruct (Hu n) as [H0 H1].
    pose proof (scaled_draw_below (random n) (Z.of_nat (S n)) H0 H1
                  ltac:(lia)) as Hlt.
    change (random n * inject_Z (2 ^ Z.of_nat (S n)))%Q
      with (nth_sleep random n) in Hlt.
    revert Ht Hsn Hp Hb Hlt.
    generalize (total (map (nth_sleep random) (seq 0 n) ++ [nth_sleep random n])),
      (total (map (nth_sleep random) (seq 0 n))), (nth_sleep random n),
      (inject_Z (2 ^ Z.of_nat (S (S n)))), (inject_Z (2 ^ Z.of_nat (S n))).
    intros T' T x P' P Ht Hsn Hp Hb Hlt. lra.
Qed.

Lemma total_sleep_below_2046_witness :
  (total (sleeps (fst (resumable_upload (fun _ => 1 # 2)%Q
                         (replicate 11 (Raise (IOError "reset"))))))
   < 2046)%Q.
Proof.
  apply (total_sleep_below_2046 (fun _ => 1 # 2)%Q).
  intros n. split; vm_compute; congruence.
Defined.

(** X7. A run in which [next_chunk] never fails in a retriable way never
    sleeps, never draws a random number, keeps [retry] at 0 and [error] at
    [None], and so never ends by giving up. *)
Theorem no_failure_no_backoff
    (random : nat -> Q) (chunks : list chunk_result) :
  Forall (fun c => ~ retriable c) chunks ->
  sleeps (fst (resumable_upload random chunks)) = []
  /\ retry (final_state (snd (resumable_upload random chunks))) = 0
  /\ draws (final_state (snd (resumable_upload random chunks))) = O
  /\ error (final_state (snd (resumable_upload random chunks))) = None
  /\ (forall st, snd (resumable_upload random chunks) <> Exited st MsgGiveUp).
Proof.
  intros Hall.
  destruct (resumable_upload random chunks) as [evs r] eqn:Hrun.
  destruct (while_loop_quiet random chunks Hall initial evs r eq_refl Hrun)
    as (Hs & He & Hr & Hd).
  simpl in *. repeat split; try assumption.
  intros st ->.
  pose proof (while_loop_outcome random chunks initial evs _ eq_refl I
                ltac:(unfold MAX_RETRIES; simpl; lia) Hrun) as Ho.
  simpl in Ho, He.
  destruct Ho as [(_ & _ & [m Hm] & _)|(r0 & Hx & _)];
    [congruence | discriminate].
Qed.

Lemma no_failure_no_backoff_witness :
  sleeps (fst (resumable_upload (fun _ => 1 # 2)%Q
                 [Return None; Raise (HttpError 404 "not found")])) = []
  /\ retry (final_state (snd (resumable_upload (fun _ => 1 # 2)%Q
                 [Return None; Raise (HttpError 404 "not found")]))) = 0
  /\ draws (final_state (snd (resumable_upload (fun _ => 1 # 2)%Q
                 [Return None; Raise (HttpError 404 "not found")]))) = O
  /\ error (final_state (snd (resumable_upload (fun _ => 1 # 2)%Q
                 [Return None; Raise (HttpError 404 "not found")]))) = None
  /\ (forall st,
        snd (resumable_upload (fun _ => 1 # 2)%Q
               [Return None; Raise (HttpError 404 "not found")])
        <> Exited st MsgGiveUp).
Proof.
  apply (no_failure_no_backoff (fun _ => 1 # 2)%Q
           [Return None; Raise (HttpError 404 "not found")]).
  apply List.Forall_cons; [simpl; tauto|].
  apply List.Forall_cons; [|apply List.Forall_nil].
  simpl. intros [m Hm]. vm_compute in Hm. discriminate.
Defined.

(** ** Runs without failure, and what follows the end *)

(** X8. Any number of results that are mere progress followed by a
    response with an id: the function returns after one call per result,
    having printed the announcement before each call and the success text
    once; it never slept, and [retry] is still 0.  Later results are not
    asked for. *)
Theorem progress_then_complete_succeeds
    (random : nat -> Q) (k : nat) (r : gmap string string) (id : string)
    (rest : list chunk_result) :
  r !! "id"%string = Some id ->
  resumable_upload random
    (replicate k (Return None) ++ Return (Some r) :: rest)
  = (progress_trace k
       ++ [EPrint MsgUploading; ENextChunk; EPrint (MsgUploaded id)],
     Returned {| response := Some r; error := None; retry := 0;
                 draws := 0 |}).
Proof.
  intros Hid. unfold resumable_upload.
  rewrite (while_loop_progress random k initial _ eq_refl eq_refl).
  simpl while_loop. unfold iteration, try_statement. rewrite Hid.
  simpl. destruct rest; reflexivity.
Qed.

Lemma progress_then_complete_succeeds_witness :
  resumable_upload (fun _ => 1 # 2)%Q
    (replicate 2 (Return None)
       ++ Return (Some {[ "id"%string := "v1"%string ]}) :: [Return None])
  = (progress_trace 2
       ++ [EPrint MsgUploading; ENextChunk; EPrint (MsgUploaded "v1")],
     Returned {| response := Some {[ "id"%string := "v1"%string ]};
                 error := None; retry := 0; draws := 0 |}).
Proof.
  apply (progress_then_complete_succeeds (fun _ => 1 # 2)%Q 2
           {[ "id"%string := "v1"%string ]} "v1" [Return None]).
  vm_compute. reflexivity.
Defined.

(** X9. Once the function has returned, exited or raised, nothing that
    [next_chunk] would have done afterwards matters: the trace and the
    result are those of the shorter list of results. *)
Theorem results_after_the_end_are_ignored
    (random : nat -> Q) (chunks more : list chunk_result)
    (evs : list event) (r : result) :
  resumable_upload random chunks = (evs, r) ->
  (forall st, r <> Running st) ->
  resumable_upload random (chunks ++ more) = (evs, r).
Proof.
  intros Hrun Hend. apply while_loop_finished; assumption.
Qed.

Lemma results_after_the_end_are_ignored_witness :
  resumable_upload (fun _ => 1 # 2)%Q
    ([Raise (HttpError 404 "not found")]
       ++ [Return (Some {[ "id"%string := "v1"%string ]})])
  = ([EPrint MsgUploading; ENextChunk],
     Raised initial (HttpError 404 "not found")).
Proof.
  apply (results_after_the_end_are_ignored (fun _ => 1 # 2)%Q
           [Raise (HttpError 404 "not found")]
           [Return (Some {[ "id"%string := "v1"%string ]})]).
  - reflexivity.
  - intros st. discriminate.
Defined.

(** X10. After a retriable failure the number of further calls of
    [next_chunk] is bounded whatever they return, progress included: if
    the loop is running after results [pre] that contain such a failure,
    having slept [s] times, at most [11 - s] more calls are made. *)
Theorem calls_after_a_failure_are_bounded
    (random : nat -> Q) (pre rest : list chunk_result) (evs : list event)
    (st : state) :
  resumable_upload random pre = (evs, Running st) ->
  Exists retriable pre ->
  (attempts (fst (resumable_upload random (pre ++ rest)))
     + length (sleeps evs)
   <= attempts evs + 11)%nat.
Proof.
  intros Hpre Hex. unfold resumable_upload in *.
  destruct (while_loop_accounting random pre initial evs _ eq_refl
              ltac:(simpl; lia) Hpre) as (n & Hs & _ & Hn & Hr).
  pose proof (while_loop_error random pre _ _ _ Hpre (or_intror Hex)) as He.
  rewrite (while_loop_app random _ _ _ _ _ Hpre). simpl fst.
  destruct (while_loop random st rest) as [evs' r'] eqn:W.
  simpl in Hr, Hn.
  pose proof (while_loop_attempts random rest st evs' r' He
                ltac:(unfold MAX_RETRIES; lia) W) as Ha.
  rewrite attempts_app, Hs, length_map, length_seq. simpl fst.
  unfold MAX_RETRIES in Ha. lia.
Qed.

Lemma calls_after_a_failure_are_bounded_witness :
  (attempts (fst (resumable_upload (fun _ => 1 # 2)%Q
                    ([Raise (IOError "reset")]
                       ++ replicate 20 (Return None))))
     + length (sleeps [EPrint MsgUploading; ENextChunk;
                       EPrint (MsgRetriable (IOError "reset"));
                       EPrint (MsgSleeping ((1 # 2) * inject_Z (2 ^ 1)));
                       ESleep ((1 # 2) * inject_Z (2 ^ 1))])
   <= attempts [EPrint MsgUploading; ENextChunk;
                EPrint (MsgRetriable (IOError "reset"));
                EPrint (MsgSleeping ((1 # 2) * inject_Z (2 ^ 1)));
                ESleep ((1 # 2) * inject_Z (2 ^ 1))] + 11)%nat.
Proof.
  apply (calls_after_a_failure_are_bounded (fun _ => 1 # 2)%Q
           [Raise (IOError "reset")] (replicate 20 (Return None)) _
           {| response := None; error := Some (MsgRetriable (IOError "reset"));
              retry := 1; draws := 1 |}).
  - reflexivity.
  - apply Exists_cons_hd. simpl. eexists. reflexivity.
Defined.

(** ** Joining and splitting *)

(** Splitting a string that begins with a piece free of separators. *)
Lemma str_split_piece (sep : Ascii.ascii) (w rest : string) :
  occurrences sep w = O ->
  str_split sep (w ++ String sep rest)%string = w :: str_split sep rest.
Proof.
  induction w as [|c w IH]; intros Hocc; simpl.
  - rewrite Ascii.eqb_refl. reflexivity.
  - simpl in Hocc. destruct (Ascii.eqb c sep); [discriminate|].
    rewrite (IH Hocc). reflexivity.
Qed.

(** A string without separator is a single piece. *)
Lemma str_split_single (sep : Ascii.ascii) (w : string) :
  occurrences sep w = O -> str_split sep w = [w].
Proof.
  induction w as [|c w IH]; intros Hocc; simpl; [reflexivity|].
  simpl in Hocc. destruct (Ascii.eqb c sep); [discriminate|].
  rewrite (IH Hocc). reflexivity.
Qed.

(** Splitting at a separator undoes joining with it: a list of pieces
    that is not empty and in which no piece contains the separator is
    recovered from the joined string. *)
Lemma str_split_join (sep : Ascii.ascii) (l : list string) :
  l <> [] ->
  Forall (fun w => occurrences sep w = O) l ->
  str_split sep (str_join (String sep EmptyString) l) = l.
Proof.
  induction l as [|w l IH]; intros Hne Hall; [congruence|].
  apply Forall_cons in Hall. destruct Hall as [Hocc Hall].
  destruct l as [|w' l].
  - simpl. apply str_split_single. exact Hocc.
  - change (str_join (String sep EmptyString) (w :: w' :: l))
      with (w ++ String sep (str_join (String sep EmptyString) (w' :: l)))%string.
    rewrite (str_split_piece _ _ _ Hocc), IH;
      [reflexivity | discriminate | exact Hall].
Qed.

(** X11. Tags survive the command line: when the keywords option is a list
    of tags joined with commas, no tag containing a comma, the tags of the
    request body are that list, empty tags included.  The list must not be
    empty nor consist of one empty tag: those two are joined to the empty
    string, for which the body has no tag list. *)
Theorem tags_round_trip (o : options) (l : list string) :
  keywords o = str_join "," l ->
  l <> [] ->
  l <> [EmptyString] ->
  Forall (fun w => occurrences "," w = O) l ->
  snippet_tags (body_snippet (insert_body (build_insert o))) = Some l.
Proof.
  intros Hk Hne Hne' Hall. simpl. rewrite Hk. unfold tags_of.
  assert (Hs : str_join "," l <> EmptyString).
  { destruct l as [|w [|w' l]]; [congruence| |].
    - simpl. congruence.
    - change (str_join "," (w :: w' :: l))
        with (w ++ String "," (str_join "," (w' :: l)))%string.
      destruct w; discriminate. }
  destruct (str_join "," l) as [|c kw] eqn:Hj; [congruence|].
  rewrite <- Hj. f_equal. apply str_split_join; assumption.
Qed.

Lemma tags_round_trip_witness :
  snippet_tags (body_snippet (insert_body (build_insert
    (mkOptions "clip.mp4" "Demo" "Test Description" "22" "a,,b c" "public"))))
  = Some ["a"; EmptyString; "b c"]%string.
Proof.
  apply (tags_round_trip
           (mkOptions "clip.mp4" "Demo" "Test Description" "22" "a,,b c"
              "public")
           ["a"; EmptyString; "b c"]%string).
  - reflexivity.
  - discriminate.
  - discriminate.
  - repeat (apply List.Forall_cons; [reflexivity|]). apply List.Forall_nil.
Defined.

(** X12. A keywords string that is not empty and contains no comma gives
    exactly one tag, the string itself, spaces included. *)
Theorem keywords_without_comma_give_one_tag (o : options) :
  keywords o <> EmptyString ->
  occurrences "," (keywords o) = O ->
  snippet_tags (body_snippet (insert_body (build_insert o)))
  = Some [keywords o].
Proof.
  intros Hne Hocc. simpl. unfold tags_of.
  destruct (keywords o) as [|c kw] eqn:Hk; [congruence|].
  f_equal. rewrite <- Hk in *. apply str_split_single. exact Hocc.
Qed.

Lemma keywords_without_comma_give_one_tag_witness :
  snippet_tags (body_snippet (insert_body (build_insert
    (mkOptions "clip.mp4" "Demo" "Test Description" "22" " cats and dogs "
       "public"))))
  = Some [" cats and dogs "%string].
Proof.
  apply (keywords_without_comma_give_one_tag
           (mkOptions "clip.mp4" "Demo" "Test Description" "22"
              " cats and dogs " "public")).
  - simpl. discriminate.
  - reflexivity.
Defined.

(** * The program *)

Lemma main_uploaded_app (a b : list main_event) :
  main_uploaded (a ++ b) = main_uploaded a ++ main_uploaded b.
Proof.
  induction a as [|[|[[]| |]|] a IH]; simpl; rewrite ?IH; reflexivity.
Qed.

Lemma main_printed_app (a b : list main_event) :
  main_printed (a ++ b) = main_printed a ++ main_printed b.
Proof.
  induction a as [|[| |] a IH]; simpl; rewrite ?IH; reflexivity.
Qed.

Lemma main_uploaded_upload (evs : list event) :
  main_uploaded (map MUpload evs) = uploaded evs.
Proof.
  induction evs as [|[[]| |] evs IH]; simpl; rewrite ?IH; reflexivity.
Qed.

Lemma main_printed_upload (evs : list event) :
  main_printed (map MUpload evs) = [].
Proof. induction evs as [|e evs IH]; simpl; [reflexivity | exact IH]. Qed.

(** The observations on the part of the trace of [main] that precedes its
    own [print]. *)
Lemma main_trace_prefix (ran : bool) (evs : list event) :
  main_uploaded ((if ran then [MRunFlow] else []) ++ map MUpload evs)
  = uploaded evs
  /\ main_printed ((if ran then [MRunFlow] else []) ++ map MUpload evs) = [].
Proof.
  rewrite main_uploaded_app, main_printed_app, main_uploaded_upload,
    main_printed_upload.
  destruct ran; split; reflexivity.
Qed.



(** X14. The program reaching its end without [exit] and without an
    exception does not mean that the video was uploaded.  Either one
    upload was reported as successful and the program printed nothing
    itself, or no upload was reported and the program printed the text of
    an [HttpError] whose status is not retriable. *)
Theorem main_finishes_in_two_ways
    (os_path_exists : string -> bool) (stored : option credentials)
    (from_flow : credentials)
    (build : credentials -> insert_args -> list chunk_result)
    (random : nat -> Q) (args : options) :
  snd (main os_path_exists stored from_flow build random args) = Finished ->
  (exists id,
      main_uploaded
        (fst (main os_path_exists stored from_flow build random args)) = [id]
      /\ main_printed
           (fst (main os_path_exists stored from_flow build random args)) = [])
  \/ (exists status content,
        main_uploaded
          (fst (main os_path_exists stored from_flow build random args)) = []
        /\ main_printed
             (fst (main os_path_exists stored from_flow build random args))
           = [TextHttpError status content]
        /\ status ∉ RETRIABLE_STATUS_CODES).
Proof.
  unfold main, initialize_upload.
  destruct (negb (os_path_exists (file args))); [discriminate|].
  destruct (get_authenticated_service stored from_flow) as [ran creds].
  destruct (resumable_upload random (build creds (build_insert args)))
    as [evs r] eqn:Hrun.
  pose proof (while_loop_outcome random _ initial evs _ eq_refl I
                ltac:(unfold MAX_RETRIES; simpl; lia) Hrun) as Ho.
  destruct (main_trace_prefix ran evs) as [Hu Hp].
  destruct r as [st|st|st m|st x]; try discriminate.
  - intros _. left. destruct Ho as (r0 & id & _ & _ & Hup).
    exists id. simpl. rewrite Hu, Hp, Hup. split; reflexivity.
  - destruct Ho as (Hx & Hup & _).
    destruct x as [status content|msg|msg|msg]; try discriminate.
    intros _. right. exists status, content. simpl.
    rewrite main_uploaded_app, main_printed_app, Hu, Hp, Hup.
    split; [reflexivity|]. split; [reflexivity|].
    simpl in Hx. destruct (decide (status ∈ RETRIABLE_STATUS_CODES));
      [discriminate | assumption].
Qed.

Lemma main_finishes_in_two_ways_witness :
  (exists id,
      main_uploaded
        (fst (main (fun _ => true) None (mkCredentials false "t")
                (fun _ _ => [Raise (HttpError 403 "quotaExceeded")])
                (fun _ => 1 # 2)%Q
                (mkOptions "clip.mp4" "Demo" "Test Description" "22"
                   EmptyString "public"))) = [id]
      /\ main_printed
           (fst (main (fun _ => true) None (mkCredentials false "t")
                   (fun _ _ => [Raise (HttpError 403 "quotaExceeded")])
                   (fun _ => 1 # 2)%Q
                   (mkOptions "clip.mp4" "Demo" "Test Description" "22"
                      EmptyString "public"))) = [])
  \/ (exists status content,
        main_uploaded
          (fst (main (fun _ => true) None (mkCredentials false "t")
                  (fun _ _ => [Raise (HttpError 403 "quotaExceeded")])
                  (fun _ => 1 # 2)%Q
                  (mkOptions "clip.mp4" "Demo" "Test Description" "22"
                     EmptyString "public"))) = []
        /\ main_printed
             (fst (main (fun _ => true) None (mkCredentials false "t")
                     (fun _ _ => [Raise (HttpError 403 "quotaExceeded")])
                     (fun _ => 1 # 2)%Q
                     (mkOptions "clip.mp4" "Demo" "Test Description" "22"
                        EmptyString "public")))
           = [TextHttpError status content]
        /\ status ∉ RETRIABLE_STATUS_CODES).
Proof.
  apply (main_finishes_in_two_ways (fun _ => true) None
           (mkCredentials false "t")
           (fun _ _ => [Raise (HttpError 403 "quotaExceeded")])
           (fun _ => 1 # 2)%Q
           (mkOptions "clip.mp4" "Demo" "Test Description" "22" EmptyString
              "public")).
  reflexivity.
Defined.

(** X15. Whatever command line the parser accepts, the privacy status
    sent in the request body is one of ["public"], ["private"] and
    ["unlisted"], the file is the one given with [--file], and when
    [--keywords] is absent the body carries no tag list. *)
Theorem accepted_command_line (cl : command_line) (o : options) :
  parse_args cl = Some o ->
  body_status_privacyStatus (insert_body (build_insert o))
    ∈ ["public"; "private"; "unlisted"]%string
  /\ arg_file cl = Some (file o)
  /\ media_filename (insert_media_body (build_insert o)) = file o
  /\ (arg_keywords cl = None ->
      snippet_tags (body_snippet (insert_body (build_insert o))) = None).
Proof.
  unfold parse_args. destruct (arg_file cl) as [f|]; [|discriminate].
  destruct (decide _) as [Hin|]; [|discriminate].
  intros H; inversion H; subst; clear H. simpl.
  repeat split; [exact Hin|]. intros ->. reflexivity.
Qed.

Lemma accepted_command_line_witness :
  body_status_privacyStatus (insert_body (build_insert
    (mkOptions "clip.mp4" "Test Title" "Test Description" "22" EmptyString
       "unlisted")))
    ∈ ["public"; "private"; "unlisted"]%string
  /\ arg_file (mkCommandLine (Some "clip.mp4"%string) None None None None
                 (Some "unlisted"%string))
     = Some (file (mkOptions "clip.mp4" "Test Title" "Test Description" "22"
                     EmptyString "unlisted"))
  /\ media_filename (insert_media_body (build_insert
       (mkOptions "clip.mp4" "Test Title" "Test Description" "22" EmptyString
          "unlisted")))
     = file (mkOptions "clip.mp4" "Test Title" "Test Description" "22"
               EmptyString "unlisted")
  /\ (arg_keywords (mkCommandLine (Some "clip.mp4"%string) None None None None
                      (Some "unlisted"%string)) = None ->
      snippet_tags (body_snippet (insert_body (build_insert
        (mkOptions "clip.mp4" "Test Title" "Test Description" "22" EmptyString
           "unlisted")))) = None).
Proof.
  apply (accepted_command_line
           (mkCommandLine (Some "clip.mp4"%string) None None None None
              (Some "unlisted"%string))).
  vm_compute. reflexivity.
Defined.
